(** * SpoilerTrack: release resolution, card collection and view derivation

    A shallow embedding of the logic of the two application variants of
    the repository:

    - the full tracker (the component with [COLOR_ORDER], the pagination
      loop, the colour sort, the mana filters and the selection set),
      embedded in [Module Tracker];
    - [src/App.jsx], the basic variant (strictly future releases, one
      page of cards, search only), embedded in [Module Basic].

    Modelling conventions.

    - JavaScript numbers that hold integers (time values in milliseconds,
      colour ranks, mana values) are [Z].  The countdown divides before
      it takes the remainder, so it is computed over [Q] and floored;
      the doubles of the source are read as the exact quotients.
    - A field that may be absent ([undefined] or [null]) is an [option].
    - Strings are [string], read as sequences of code units below 256
      (Basic Latin and the Latin-1 supplement, which hold the letters of
      the card names: "Lim-Dul" with a circumflex, "Eowyn" with an acute
      accent, and the like).  On such strings [toLowerCase] maps each
      code unit on its own: A-Z and the capitals U+00C0 to U+00DE (the
      multiplication sign U+00D7 apart) move up by 32, everything else
      stays.  A string literal of this file is ASCII; other code units
      are written by number.
    - [new Date(s.released_at)] is represented by its time value:
      [Some t] for a date that parses, [None] for an Invalid Date (NaN),
      against which every comparison is false.
    - [Array.prototype.sort] is a stable sort driven by the sign of the
      comparator (ECMAScript 2019 and later); a NaN result counts as 0.
    - A promise is either fulfilled with a value or rejected; an [await]
      on a rejected promise throws.  The [while] loop over pages takes
      fuel, and running out of fuel is reported as [Pending], a result
      that neither [catch] nor [finally] intercepts.  The 50 ms pause
      between two page requests and the one-second period of the
      countdown timer are not represented. *)

From Stdlib Require Import ZArith QArith Qround String Ascii List Lia.
From Stdlib Require Import Sorting.Sorted Sorting.Permutation.
From stdpp Require Import gmap strings list pretty.

Local Open Scope string_scope.
Local Open Scope Z_scope.

(** ** JavaScript primitives used by the application *)

Module JS.

(** Truthiness of a value that is a string, [null] or [undefined]:
    only a non-empty string is truthy. *)
Definition truthy (v : option string) : bool :=
  match v with
  | Some s => negb (String.eqb s "")
  | None => false
  end.

(** The code units below 256 that have a lower-case form of their own:
    A-Z, and U+00C0 to U+00DE without the multiplication sign U+00D7. *)
Definition is_upper_code (n : nat) : bool :=
  (Nat.leb 65 n && Nat.leb n 90)
  || (Nat.leb 192 n && Nat.leb n 222 && negb (Nat.eqb n 215)).

(** [String.prototype.toLowerCase], one code unit at a time. *)
Definition lower_ascii (a : ascii) : ascii :=
  let n := nat_of_ascii a in
  if is_upper_code n then ascii_of_nat (n + 32) else a.

Fixpoint toLowerCase (s : string) : string :=
  match s with
  | EmptyString => EmptyString
  | String a s' => String (lower_ascii a) (toLowerCase s')
  end.

Fixpoint startsWith (s p : string) {struct p} : bool :=
  match p, s with
  | EmptyString, _ => true
  | String b p', String a s' => Ascii.eqb a b && startsWith s' p'
  | String _ _, EmptyString => false
  end.

(** [s.includes(p)]: [p] occurs in [s] as a contiguous substring. *)
Fixpoint includes (s p : string) : bool :=
  startsWith s p ||
  match s with
  | EmptyString => false
  | String _ s' => includes s' p
  end.

(** [xs.includes(x)] on an array of strings. *)
Definition array_includes (xs : list string) (x : string) : bool :=
  existsb (String.eqb x) xs.

(** [Array.prototype.sort(cmp)]: stable, ordered by the sign of [cmp].
    An element is moved past exactly those elements that the comparator
    places strictly before it. *)
Section Sort.
Context {A : Type} (cmp : A → A → Z).

Fixpoint insert (x : A) (l : list A) : list A :=
  match l with
  | [] => [x]
  | y :: l' => if 0 <? cmp x y then y :: insert x l' else x :: y :: l'
  end.

Definition sort (l : list A) : list A := foldr insert [] l.
End Sort.

(** The remainder operator [%] on non-integral numbers: the result has
    the sign of the dividend ([x - y * trunc (x / y)]). *)
Definition Qtrunc (x : Q) : Z :=
  if Qle_bool 0 x then Qfloor x else Qceiling x.

Definition rem (x y : Q) : Q := (x - y * inject_Z (Qtrunc (x / y)))%Q.

(** [Math.floor]. *)
Definition floor (x : Q) : Z := Qfloor x.

(** [String(v)] for a number that holds an integer: its decimal digits,
    with a minus sign when negative. *)
Definition toString (v : Z) : string := pretty v.

Fixpoint repeat_string (n : nat) (p : string) : string :=
  match n with
  | O => ""
  | S n' => p +:+ repeat_string n' p
  end.

(** [s.padStart(targetLength, padString)]: the pad string is repeated
    and truncated to fill the missing length; a string that is long
    enough, or an empty pad string, leaves [s] as it is. *)
Definition padStart (s : string) (targetLength : nat) (padString : string)
    : string :=
  if (String.length s <? targetLength)%nat && negb (String.eqb padString "")
  then
    let fillLen := (targetLength - String.length s)%nat in
    String.substring 0 fillLen (repeat_string fillLen padString) +:+ s
  else s.

End JS.

(** ** Data received from the card database *)

Module Scryfall.

(** An entry of the sets catalogue.  [released_at] holds the time value
    (milliseconds since the epoch) of [new Date(s.released_at)], [None]
    when the date does not parse. *)
Record SetInfo := {
  code : string;
  set_type : string;
  released_at : option Z
}.

Record ImageUris := { normal : option string }.

Record Face := {
  face_colors : option (list string);
  face_image_uris : option ImageUris
}.

Record Card := {
  id : string;
  name : string;
  colors : option (list string);
  cmc : Z;
  card_faces : option (list Face);
  image_uris : option ImageUris
}.

(** One parsed body of the card search: [data], [has_more], [next_page]. *)
Record Page := {
  data : option (list Card);
  has_more : bool;
  next_page : option string
}.

End Scryfall.
Import Scryfall.

(** ** Promises, the outside world and the task monad *)

Inductive Outcome (A : Type) : Type :=
| Fulfilled (a : A)
| Rejected.
Arguments Fulfilled {A} a.
Arguments Rejected {A}.

(** What the browser sees during one start-up: the parsed [data] of the
    sets request, the clock, and the card search, whose answer may
    depend on how many requests were made before and on the URI. *)
Record World := {
  sets_api : Outcome (option (list SetInfo));
  clock : Z;
  search_api : nat → string → Outcome Page
}.

(** The state cells written by [fetchData], and the card-search requests
    issued so far. *)
Record State := {
  loading : bool;
  currentSet : option SetInfo;
  cards : list Card;
  requests : list string
}.

Inductive Res (A : Type) : Type :=
| Val (a : A)
| Exn
| Pending.
Arguments Val {A} a.
Arguments Exn {A}.
Arguments Pending {A}.

Definition Task (A : Type) : Type := State → Res A * State.

Definition ret {A} (a : A) : Task A := fun st => (Val a, st).

Definition bind {A B} (t : Task A) (k : A → Task B) : Task B :=
  fun st =>
    match t st with
    | (Val a, st') => k a st'
    | (Exn, st') => (Exn, st')
    | (Pending, st') => (Pending, st')
    end.

Definition throw {A} : Task A := fun st => (Exn, st).
Definition pending {A} : Task A := fun st => (Pending, st).

(** [try { body } catch (err) { handler }] *)
Definition try_catch {A} (body handler : Task A) : Task A :=
  fun st =>
    match body st with
    | (Exn, st') => handler st'
    | r => r
    end.

(** [try { body } finally { fin }]: [fin] runs after a normal or an
    abrupt completion of [body], which then keeps its result. *)
Definition try_finally {A} (body : Task A) (fin : Task unit) : Task A :=
  fun st =>
    match body st with
    | (Pending, st') => (Pending, st')
    | (r, st') =>
        match fin st' with
        | (Val _, st'') => (r, st'')
        | (Exn, st'') => (Exn, st'')
        | (Pending, st'') => (Pending, st'')
        end
    end.

Definition await {A} (p : Outcome A) : Task A :=
  match p with
  | Fulfilled a => ret a
  | Rejected => throw
  end.

#[global] Instance task_ret : MRet Task := @ret.
#[global] Instance task_bind : MBind Task := λ A B k t, bind t k.

Definition setLoading (b : bool) : Task unit := fun st =>
  (Val tt, {| loading := b; currentSet := currentSet st;
              cards := cards st; requests := requests st |}).

Definition setCurrentSet (s : SetInfo) : Task unit := fun st =>
  (Val tt, {| loading := loading st; currentSet := Some s;
              cards := cards st; requests := requests st |}).

Definition setCards (cs : list Card) : Task unit := fun st =>
  (Val tt, {| loading := loading st; currentSet := currentSet st;
              cards := cs; requests := requests st |}).

(** The state after one more card-search request has gone out. *)
Definition sent (uri : string) (st : State) : State :=
  {| loading := loading st; currentSet := currentSet st;
     cards := cards st; requests := (requests st ++ [uri])%list |}.

(** [await (await fetch(uri)).json()] on the card search. *)
Definition fetchJson (w : World) (uri : string) : Task Page := fun st =>
  await (search_api w (length (requests st)) uri) (sent uri st).

(** The state of a freshly mounted component. *)
Definition mounted : State :=
  {| loading := true; currentSet := None; cards := []; requests := [] |}.

(** The state in which the pagination loop starts: loading, with the
    target release recorded. *)
Definition tracking (t : SetInfo) (st : State) : State :=
  {| loading := true; currentSet := Some t;
     cards := cards st; requests := requests st |}.

Definition SCRYFALL_SEARCH_API : string := "https://api.scryfall.com/cards/search".

(** Comparisons of a [Date] with an instant; false on an Invalid Date. *)
Definition date_gt (dt : option Z) (t : Z) : bool :=
  match dt with Some x => t <? x | None => false end.

Definition date_ge (dt : option Z) (t : Z) : bool :=
  match dt with Some x => t <=? x | None => false end.

(** [new Date(a) - new Date(b)] as a comparator result (NaN reads as 0). *)
Definition date_diff (a b : option Z) : Z :=
  match a, b with
  | Some x, Some y => x - y
  | _, _ => 0
  end.

Definition byDate (a b : SetInfo) : Z := date_diff (released_at a) (released_at b).

(** [xs[i]] for a possibly negative index. *)
Definition at_index {A} (xs : list A) (i : Z) : option A :=
  if i <? 0 then None else xs !! Z.to_nat i.

(** ** The full tracker *)

Module Tracker.

Definition COLOR_ORDER : gmap string Z :=
  {[ "W" := 0; "U" := 1; "B" := 2; "R" := 3; "G" := 4;
     "M" := 5;  (* Multicolored *)
     "C" := 6   (* Colorless *) ]}.

(** *** Steps 1-3 of [fetchData]: the release to track

    [candidates] is the array after the in-place sort of step 2. *)

Definition candidates (data : list SetInfo) (now : Z) : list SetInfo :=
  JS.sort byDate
    (List.filter
       (fun s => date_gt (released_at s) (now - 1000 * 60 * 60 * 24 * 60))
       (List.filter
          (fun s => JS.array_includes ["expansion"; "core"; "masters"] (set_type s))
          data)).

Definition futureSets (data : list SetInfo) (now : Z) : list SetInfo :=
  List.filter (fun s => date_ge (released_at s) now) (candidates data now).

Definition targetSet (data : list SetInfo) (now : Z) : option SetInfo :=
  if (0 <? length (futureSets data now))%nat
  then futureSets data now !! 0%nat
  else at_index (candidates data now)
                (Z.of_nat (length (candidates data now)) - 1).

(** *** Step 4: the pagination loop

    One unit of fuel is one iteration of [while (nextUri)]. *)

Fixpoint fetchPages (w : World) (fuel : nat)
    (nextUri : option string) (allFetchedCards : list Card) : Task (list Card) :=
  if JS.truthy nextUri then
    match fuel with
    | O => pending
    | S fuel' =>
        cardData ← fetchJson w (default "" nextUri);
        let allFetchedCards' :=
          match data cardData with
          | Some page => (allFetchedCards ++ page)%list
          | None => allFetchedCards
          end in
        let nextUri' :=
          if has_more cardData && JS.truthy (next_page cardData)
          then next_page cardData
          else None in
        fetchPages w fuel' nextUri' allFetchedCards'
    end
  else mret allFetchedCards.

(** *** Step 5: sort by colour, then by mana value

    Own keys of [COLOR_ORDER] only: the properties inherited from
    [Object.prototype] are not represented. *)

Definition getColorIndex (c : Card) : Z :=
  match colors c with
  | None => COLOR_ORDER !!! "C"
  | Some cs =>
      if (length cs =? 0)%nat then COLOR_ORDER !!! "C"
      else if (1 <? length cs)%nat then COLOR_ORDER !!! "M"
      else default 7 (cs !! 0%nat ≫= (COLOR_ORDER !!.))
  end.

Definition compareCards (a b : Card) : Z :=
  let colorA := getColorIndex a in
  let colorB := getColorIndex b in
  if negb (colorA =? colorB) then colorA - colorB
  else cmc a - cmc b.

Definition sortedCards (allFetchedCards : list Card) : list Card :=
  JS.sort compareCards allFetchedCards.

Definition searchUri (s : SetInfo) : string :=
  SCRYFALL_SEARCH_API +:+ "?q=set:" +:+ code s +:+ "&unique=prints".

Definition fetchData (w : World) (fuel : nat) : Task unit :=
  try_finally
    (try_catch
       (setLoading true;;
        data ← await (sets_api w);
        data ← match data with Some l => mret l | None => throw end;
        let now := clock w in
        match targetSet data now with
        | Some target =>
            setCurrentSet target;;
            allFetchedCards ← fetchPages w fuel (Some (searchUri target)) [];
            setCards (sortedCards allFetchedCards)
        | None => mret tt
        end)
       (mret tt))
    (setLoading false).

(** *** The countdown *)

Record TimeLeft := { d : Z; h : Z; m : Z; s : Z }.

(** The body of the interval callback, for a given [prereleaseDate] and
    a given reading [now] of the clock (both time values). *)
Definition tick (prereleaseDate now : Z) : TimeLeft :=
  let diff := prereleaseDate - now in
  if diff <=? 0 then {| d := 0; h := 0; m := 0; s := 0 |}
  else
    let x := inject_Z diff in
    {| d := JS.floor (x / (1000 * 60 * 60 * 24))%Q;
       h := JS.floor (JS.rem (x / (1000 * 60 * 60)) 24)%Q;
       m := JS.floor (JS.rem (x / 1000 / 60) 60)%Q;
       s := JS.floor (JS.rem (x / 1000) 60)%Q |}.

(** *** Selection *)

(** The set handed to [setSelectedCards]: a copy of [selectedCards] with
    [id] deleted when it was there, added when it was not. *)
Definition toggleSelection (selectedCards : gset string) (id : string)
    : gset string :=
  if bool_decide (id ∈ selectedCards)
  then selectedCards ∖ {[ id ]}
  else selectedCards ∪ {[ id ]}.

(** *** The derived view *)

Definition firstFace (c : Card) : option Face := card_faces c ≫= (.!! 0%nat).

(** [c.colors || c.card_faces?.[0]?.colors || []]; an array, even an
    empty one, is truthy. *)
Definition cardColors (c : Card) : list string :=
  match colors c with
  | Some cs => cs
  | None => default [] (firstFace c ≫= face_colors)
  end.

(** The callback of [cards.filter] in [filteredCards]. *)
Definition keep (searchTerm : string) (activeFilter : option string)
    (c : Card) : bool :=
  if negb (JS.includes (JS.toLowerCase (name c)) (JS.toLowerCase searchTerm))
  then false
  else if JS.truthy activeFilter then
    let cardColors := cardColors c in
    let activeFilter := default "" activeFilter in
    if String.eqb activeFilter "C" then (length cardColors =? 0)%nat
    else if String.eqb activeFilter "M" then (1 <? length cardColors)%nat
    else (length cardColors =? 1)%nat
         && bool_decide (cardColors !! 0%nat = Some activeFilter)
  else true.

Definition filteredCards (cards : list Card) (searchTerm : string)
    (activeFilter : option string) : list Card :=
  List.filter (keep searchTerm activeFilter) cards.

(** *** [CardItem]: image and colour pips *)

(** [card.image_uris?.normal || card.card_faces?.[0]?.image_uris?.normal] *)
Definition img (card : Card) : option string :=
  let top : option string := image_uris card ≫= normal in
  if JS.truthy top then top
  else (firstFace card ≫= face_image_uris) ≫= normal.

(** [colors] in [CardItem]: the same expression as in the filter. *)
Definition pipColors (card : Card) : list string := cardColors card.

(** *** The mana filter buttons *)

Definition MANA_FILTERS : list (string * string) :=
  [ ("W", "White"); ("U", "Blue"); ("B", "Black"); ("R", "Red");
    ("G", "Green"); ("C", "Colorless"); ("M", "Multi") ].

(** [onClick] of the button of filter [f]:
    [setActiveFilter(isActive ? null : f.id)]. *)
Definition clickFilter (activeFilter : option string) (f : string * string)
    : option string :=
  let isActive := bool_decide (activeFilter = Some f.1) in
  if isActive then None else Some f.1.

(** [onClick] of the clear button and of "Clear Filters". *)
Definition clearFilter : option string := None.

(** The clicks that change [activeFilter]: on the button rendered for an
    entry of [MANA_FILTERS], or on one of the two clearing controls. *)
Inductive FilterClick :=
| ClickMana (f : string * string)
| ClickClear.

Definition afterClick (activeFilter : option string) (e : FilterClick)
    : option string :=
  match e with
  | ClickMana f => clickFilter activeFilter f
  | ClickClear => clearFilter
  end.

(** *** The theme

    The same lines in both variants.  [classList] is the class list of
    the document element, [localStorage] the key-value store. *)

Record Browser := {
  classList : gset string;
  localStorage : gmap string string
}.

(** The initial value of [isDark]. *)
Definition initialIsDark (b : Browser) : bool :=
  let saved := localStorage b !! "theme" in
  if JS.truthy saved then bool_decide (saved = Some "dark") else true.

(** The effect run after every change of [isDark]. *)
Definition themeEffect (isDark : bool) (b : Browser) : Browser :=
  if isDark then
    {| classList := classList b ∪ {[ "dark" ]};
       localStorage := <[ "theme" := "dark" ]> (localStorage b) |}
  else
    {| classList := classList b ∖ {[ "dark" ]};
       localStorage := <[ "theme" := "light" ]> (localStorage b) |}.

(** *** [CountdownUnit] *)

Definition CountdownUnit (val : Z) : string :=
  JS.padStart (JS.toString val) 2 "0".

End Tracker.

(** ** [src/App.jsx]: the basic variant *)

Module Basic.

Definition upcoming (data : list SetInfo) (now : Z) : option SetInfo :=
  JS.sort byDate
    (List.filter
       (fun s => JS.array_includes ["expansion"; "core"; "masters"; "commander"]
                   (set_type s)
                 && date_gt (released_at s) now)
       data) !! 0%nat.

Definition searchUri (s : SetInfo) : string :=
  SCRYFALL_SEARCH_API +:+ "?q=set:" +:+ code s +:+ "&order=spoiled".

Definition fetchData (w : World) : Task unit :=
  try_finally
    (try_catch
       (data ← await (sets_api w);
        data ← match data with Some l => mret l | None => throw end;
        let now := clock w in
        match upcoming data now with
        | Some up =>
            setCurrentSet up;;
            cardData ← fetchJson w (searchUri up);
            setCards (default [] (Scryfall.data cardData))
        | None => mret tt
        end)
       (mret tt))
    (setLoading false).

Definition filteredCards (cards : list Card) (searchTerm : string) : list Card :=
  List.filter
    (fun c => JS.includes (JS.toLowerCase (name c)) (JS.toLowerCase searchTerm))
    cards.

End Basic.

(** ** Notions of the specification *)

Module Spec.

(** The rank table of the colour letters. *)
Definition letterRank (x : string) : option Z :=
  if String.eqb x "W" then Some 0
  else if String.eqb x "U" then Some 1
  else if String.eqb x "B" then Some 2
  else if String.eqb x "R" then Some 3
  else if String.eqb x "G" then Some 4
  else None.

(** Colour-class rank first, mana value second. *)
Definition card_le (a b : Card) : Prop :=
  Tracker.getColorIndex a < Tracker.getColorIndex b ∨
  (Tracker.getColorIndex a = Tracker.getColorIndex b ∧ cmc a ≤ cmc b).

(** The cards of one colour class and one mana value. *)
Definition hasKeys (rank cost : Z) (c : Card) : bool :=
  (Tracker.getColorIndex c =? rank) && (cmc c =? cost).

(** The release kinds that the tracker follows. *)
Definition trackable (s : SetInfo) : Prop :=
  In (set_type s) ["expansion"; "core"; "masters"].

Definition day : Z := 24 * 60 * 60 * 1000.

(** Releases stay candidates for sixty days after their date. *)
Definition retention : Z := 60 * day.

(** The instant of a release whose date parses. *)
Definition releasedOn (s : SetInfo) (t : Z) : Prop := released_at s = Some t.

(** The time value used for ordering; only read on parsable dates. *)
Definition timeOf (s : SetInfo) : Z := default 0 (released_at s).

(** The capital letters, by code: A-Z, and the accented capitals from
    U+00C0 (A grave) to U+00DE (Thorn), the multiplication sign apart. *)
Definition capital (n : nat) : Prop :=
  (65 ≤ n ∧ n ≤ 90)%nat ∨ (192 ≤ n ∧ n ≤ 222 ∧ n ≠ 215)%nat.

(** [l] is the small letter of the capital [u]. *)
Definition casePair (u l : ascii) : Prop :=
  capital (nat_of_ascii u) ∧ nat_of_ascii l = (nat_of_ascii u + 32)%nat.

(** Two characters are the same up to letter case. *)
Definition sameLetter (a b : ascii) : Prop :=
  a = b ∨ casePair a b ∨ casePair b a.

(** Two texts are the same up to letter case: same length, and the same
    letter at each place. *)
Fixpoint sameText (a b : string) : Prop :=
  match a, b with
  | EmptyString, EmptyString => True
  | String x a', String y b' => sameLetter x y ∧ sameText a' b'
  | _, _ => False
  end.

(** Case-insensitive substring match: some contiguous part of the name
    equals the search text up to letter case. *)
Definition matchesSearch (searchText name : string) : Prop :=
  ∃ pre mid post,
    name = pre +:+ mid +:+ post ∧ sameText mid searchText.

(** The colours of a card: its top-level [colors] when present, else
    the colours of its first face, else none. *)
Definition colorsOf (c : Card) : list string :=
  match colors c, card_faces c with
  | Some cs, _ => cs
  | None, Some (face :: _) =>
      match face_colors face with
      | Some cs => cs
      | None => []
      end
  | None, _ => []
  end.

(** The colour filter, for the filter ids of the mana buttons: [C] is
    colourless, [M] is multicolour, any other id is a colour letter. *)
Definition passesColor (f : string) (cs : list string) : Prop :=
  (f = "C" ∧ cs = []) ∨
  (f = "M" ∧ (1 < length cs)%nat) ∨
  (f ≠ "C" ∧ f ≠ "M" ∧ cs = [f]).

(** A card is shown when it satisfies every active predicate. *)
Definition visible (searchText : string) (activeFilter : option string)
    (c : Card) : Prop :=
  matchesSearch searchText (name c) ∧
  ∀ f, activeFilter = Some f → f ≠ "" → passesColor f (colorsOf c).

(** The release kinds that the basic variant follows. *)
Definition basicTrackable (s : SetInfo) : Prop :=
  In (set_type s) ["expansion"; "core"; "masters"; "commander"].

(** The whole seconds that a countdown reading stands for. *)
Definition totalSeconds (t : Tracker.TimeLeft) : Z :=
  Tracker.d t * 86400 + Tracker.h t * 3600 + Tracker.m t * 60 + Tracker.s t.

(** The five colour letters. *)
Definition colorLetters : list string := ["W"; "U"; "B"; "R"; "G"].

(** The cards carried by a page. *)
Definition pageCards (p : Page) : list Card := default [] (data p).

(** A response gives a continuation when it says that more pages exist
    and names the next page. *)
Definition continues (p : Page) (uri' : string) : Prop :=
  has_more p = true ∧ next_page p = Some uri' ∧ uri' ≠ "".

Definition gives_no_continuation (p : Page) : Prop :=
  has_more p = false ∨ next_page p = None ∨ next_page p = Some "".

(** [PageChain srv n uri ps]: from request number [n] on, starting at
    [uri], the source answers with the pages [ps], each but the last
    pointing to the next, the last giving no continuation. *)
Inductive PageChain (srv : nat → string → Outcome Page)
    : nat → string → list Page → Prop :=
| chain_last n uri p :
    srv n uri = Fulfilled p →
    gives_no_continuation p →
    PageChain srv n uri [p]
| chain_next n uri p uri' ps :
    srv n uri = Fulfilled p →
    continues p uri' →
    PageChain srv (S n) uri' ps →
    PageChain srv n uri (p :: ps).

(** [BrokenChain srv n uri ps]: the source answers with the pages [ps],
    each pointing to the next, and the request after them is rejected. *)
Inductive BrokenChain (srv : nat → string → Outcome Page)
    : nat → string → list Page → Prop :=
| broken_here n uri :
    srv n uri = Rejected →
    BrokenChain srv n uri []
| broken_later n uri p uri' ps :
    srv n uri = Fulfilled p →
    continues p uri' →
    BrokenChain srv (S n) uri' ps →
    BrokenChain srv n uri (p :: ps).

(** The continuation references that a chain of pages hands out: the
    next-page reference of every page but the last. *)
Definition continuations (ps : list Page) : list string :=
  omap next_page (removelast ps).

End Spec.

(** ** Sample data *)

Module Sample.

Definition plainCard (cs : list string) (cost : Z) : Card :=
  {| id := ""; name := ""; colors := Some cs; cmc := cost;
     card_faces := None; image_uris := None |}.

Definition named (n : string) (cs : list string) : Card :=
  {| id := n; name := n; colors := Some cs; cmc := 1;
     card_faces := None; image_uris := None |}.

Definition bolt : Card := named "Lightning Bolt" ["R"].

(** "Eowyn, Fearless Knight", with its capital E acute (U+00C9). *)
Definition eowyn : Card :=
  named (String (ascii_of_nat 201) "owyn, Fearless Knight") ["W"].

(** "eowyn" with a small e acute (U+00E9), and "EOWYN" with a capital. *)
Definition eowyn_small : string := String (ascii_of_nat 233) "owyn".
Definition eowyn_capitals : string := String (ascii_of_nat 201) "OWYN".
Definition opt : Card := named "Opt" ["U"].

(** A transforming card: no top-level colours or image, a red front. *)
Definition redTransform : Card :=
  {| id := "dfc"; name := "Red Transform"; colors := None; cmc := 3;
     card_faces :=
       Some [ {| face_colors := Some ["R"];
                 face_image_uris := Some {| normal := Some "front.jpg" |} |};
              {| face_colors := Some ["G"];
                 face_image_uris := Some {| normal := Some "back.jpg" |} |} ];
     image_uris := None |}.

Definition release (c ty : string) (t : Z) : SetInfo :=
  {| code := c; set_type := ty; released_at := Some t |}.

Definition xyz : SetInfo := release "xyz" "expansion" 1000.

Definition page1 : Page :=
  {| data := Some (replicate 175 (plainCard ["R"] 1));
     has_more := true; next_page := Some "page2" |}.
Definition page2 : Page :=
  {| data := Some (replicate 175 (plainCard ["U"] 2));
     has_more := true; next_page := Some "page3" |}.
Definition page3 : Page :=
  {| data := Some (replicate 50 (plainCard [] 3));
     has_more := false; next_page := None |}.

(** A fake source of three pages of 175, 175 and 50 cards. *)
Definition threePages (n : nat) (uri : string) : Outcome Page :=
  if String.eqb uri (Tracker.searchUri xyz) then Fulfilled page1
  else if String.eqb uri "page2" then Fulfilled page2
  else if String.eqb uri "page3" then Fulfilled page3
  else Rejected.

(** A source whose second page cannot be fetched. *)
Definition secondPageFails (n : nat) (uri : string) : Outcome Page :=
  if String.eqb uri (Tracker.searchUri xyz) then Fulfilled page1
  else Rejected.

Definition world (srv : nat → string → Outcome Page) : World :=
  {| sets_api := Fulfilled (Some [xyz]); clock := 0; search_api := srv |}.

(** A catalogue whose only trackable release is a hundred days old. *)
Definition staleWorld : World :=
  {| sets_api := Fulfilled (Some [release "old" "expansion" 0;
                                  release "cmd" "commander" (200 * Spec.day)]);
     clock := 100 * Spec.day;
     search_api := threePages |}.

(** A source whose every page points back to the first request. *)
Definition endless (n : nat) (uri : string) : Outcome Page :=
  Fulfilled {| data := Some [bolt]; has_more := true;
               next_page := Some (Tracker.searchUri xyz) |}.

(** The basic variant's source: the first page of three. *)
Definition basicPages (n : nat) (uri : string) : Outcome Page :=
  if String.eqb uri (Basic.searchUri xyz) then Fulfilled page1
  else if String.eqb uri "page2" then Fulfilled page2
  else if String.eqb uri "page3" then Fulfilled page3
  else Rejected.

End Sample.

(** ** Facts about [JS.sort] *)

Section SortFacts.
Context {A : Type} (cmp : A → A → Z).

Lemma insert_perm (x : A) (l : list A) : Permutation (JS.insert cmp x l) (x :: l).
Proof.
  induction l as [|y l IH]; simpl; [reflexivity|].
  destruct (0 <? cmp x y); [|reflexivity].
  rewrite IH. apply perm_swap.
Qed.

Lemma sort_perm (l : list A) : Permutation (JS.sort cmp l) l.
Proof.
  induction l as [|x l IH]; simpl; [reflexivity|].
  fold (JS.sort cmp l). rewrite insert_perm. by constructor.
Qed.

Lemma sort_In (l : list A) (x : A) : In x (JS.sort cmp l) ↔ In x l.
Proof.
  split; apply Permutation_in; [|symmetry]; apply sort_perm.
Qed.

(** Inserting keeps the list ordered as soon as the comparator never
    places two elements strictly before each other. *)
Lemma insert_sorted (x : A) (l : list A) :
  (∀ y, In y l → 0 < cmp x y → cmp y x ≤ 0) →
  Sorted (λ a b, cmp a b ≤ 0) l →
  Sorted (λ a b, cmp a b ≤ 0) (JS.insert cmp x l).
Proof.
  intros Hanti Hs. induction l as [|y l IH]; simpl.
  - repeat constructor.
  - destruct (0 <? cmp x y) eqn:E.
    + apply Z.ltb_lt in E. inversion Hs as [|? ? Hs' Hhd]; subst.
      constructor.
      * apply IH; [|done]. intros z Hz. apply Hanti. by right.
      * destruct l as [|z l]; simpl.
        -- constructor. apply Hanti; [by left | done].
        -- destruct (0 <? cmp x z).
           ++ inversion Hhd; subst. by constructor.
           ++ constructor. apply Hanti; [by left | done].
    + apply Z.ltb_ge in E. constructor; [done|]. by constructor.
Qed.

Lemma sort_sorted (l : list A) :
  (∀ x y, In x l → In y l → 0 < cmp x y → cmp y x ≤ 0) →
  Sorted (λ a b, cmp a b ≤ 0) (JS.sort cmp l).
Proof.
  induction l as [|x l IH]; intros Hanti; simpl; [constructor|].
  fold (JS.sort cmp l). apply insert_sorted.
  - intros y Hy. apply Hanti; [by left|]. right. by apply sort_In.
  - apply IH. intros a b Ha Hb. apply Hanti; by right.
Qed.

(** Stability: a class of elements that the comparator never orders
    strictly keeps its arrival order. *)
Lemma insert_filter (p : A → bool) (x : A) (l : list A) :
  (p x = true → ∀ y, In y l → p y = true → cmp x y ≤ 0) →
  List.filter p (JS.insert cmp x l) = List.filter p (x :: l).
Proof.
  intros Hcls. induction l as [|y l IH]; [done|].
  simpl. destruct (0 <? cmp x y) eqn:E; [|done].
  apply Z.ltb_lt in E. simpl.
  assert (Hxy : p x = true → p y = false).
  { intros Hx. destruct (p y) eqn:Hy; [|done].
    specialize (Hcls Hx y (or_introl eq_refl) Hy). lia. }
  simpl in IH. rewrite IH.
  - destruct (p x) eqn:Hx; [|done]. by rewrite Hxy.
  - intros Hx z Hz. apply Hcls; [done | by right].
Qed.

Lemma sort_filter (p : A → bool) (l : list A) :
  (∀ x y, In x l → In y l → p x = true → p y = true → cmp x y ≤ 0) →
  List.filter p (JS.sort cmp l) = List.filter p l.
Proof.
  induction l as [|x l IH]; intros Hcls; [done|].
  simpl. fold (JS.sort cmp l). rewrite insert_filter.
  - simpl. rewrite IH; [done|]. intros a b Ha Hb. apply Hcls; by right.
  - intros Hx y Hy. apply Hcls; [by left | right; by apply sort_In | done].
Qed.

Lemma sort_length (l : list A) : length (JS.sort cmp l) = length l.
Proof. apply Permutation_length, sort_perm. Qed.

End SortFacts.

(** ** Sorting the collected cards *)

Section CardOrder.
Import Tracker Sample.

Lemma compareCards_le (a b : Card) : compareCards a b ≤ 0 ↔ Spec.card_le a b.
Proof.
  unfold compareCards, Spec.card_le.
  destruct (getColorIndex a =? getColorIndex b) eqn:E; simpl.
  - apply Z.eqb_eq in E. lia.
  - apply Z.eqb_neq in E. lia.
Qed.

Lemma card_le_total (a b : Card) : Spec.card_le a b ∨ Spec.card_le b a.
Proof. unfold Spec.card_le. lia. Qed.

#[local] Instance card_le_trans : Transitive Spec.card_le.
Proof. intros a b c. unfold Spec.card_le. lia. Qed.

Lemma Sorted_weaken {A} (R R' : A → A → Prop) (l : list A) :
  (∀ a b, R a b → R' a b) → Sorted R l → Sorted R' l.
Proof.
  intros HR. induction 1 as [|x l _ IH Hhd]; constructor; [done|].
  destruct Hhd; constructor. by apply HR.
Qed.

Lemma lookup_COLOR_ORDER (x : string) (r : Z) :
  Spec.letterRank x = Some r → COLOR_ORDER !! x = Some r.
Proof.
  unfold Spec.letterRank.
  repeat match goal with
         | |- context [String.eqb x ?s] =>
             destruct (String.eqb_spec x s) as [->|_];
             [intros [= <-]; reflexivity|]
         end.
  discriminate.
Qed.

Lemma hasKeys_self (c : Card) : Spec.hasKeys (getColorIndex c) (cmc c) c = true.
Proof. unfold Spec.hasKeys. by rewrite !Z.eqb_refl. Qed.

Lemma hasKeys_same (a b : Card) :
  Spec.card_le a b → Spec.card_le b a →
  Spec.hasKeys (getColorIndex a) (cmc a) b = true.
Proof.
  unfold Spec.card_le, Spec.hasKeys. intros Hab Hba.
  apply andb_true_iff. split; apply Z.eqb_eq; lia.
Qed.

Lemma card_le_head (x y : Card) (l : list Card) :
  StronglySorted Spec.card_le (y :: l) → In x (y :: l) → Spec.card_le y x.
Proof.
  intros Hs [->|Hx].
  - unfold Spec.card_le. lia.
  - inversion Hs as [|? ? _ Hall]; subst.
    rewrite List.Forall_forall in Hall. by apply Hall.
Qed.

(** The order and the arrival order within each class of equal keys
    determine the list: every stable sort returns the same result. *)
Lemma stable_sorted_unique (l1 l2 : list Card) :
  StronglySorted Spec.card_le l1 →
  StronglySorted Spec.card_le l2 →
  (∀ rank cost, List.filter (Spec.hasKeys rank cost) l1
                = List.filter (Spec.hasKeys rank cost) l2) →
  l1 = l2.
Proof.
  revert l2. induction l1 as [|x l1 IH]; intros [|y l2] H1 H2 Hf.
  - done.
  - specialize (Hf (getColorIndex y) (cmc y)). simpl in Hf.
    by rewrite hasKeys_self in Hf.
  - specialize (Hf (getColorIndex x) (cmc x)). simpl in Hf.
    by rewrite hasKeys_self in Hf.
  - assert (Hx : In x (y :: l2)).
    { eapply (proj1 (filter_In _ _ _)). rewrite <- Hf. simpl.
      rewrite hasKeys_self. by left. }
    assert (Hy : In y (x :: l1)).
    { eapply (proj1 (filter_In _ _ _)). rewrite Hf. simpl.
      rewrite hasKeys_self. by left. }
    pose proof (card_le_head _ _ _ H2 Hx) as Hyx.
    pose proof (card_le_head _ _ _ H1 Hy) as Hxy.
    pose proof (Hf (getColorIndex x) (cmc x)) as Hhd. simpl in Hhd.
    rewrite hasKeys_self, (hasKeys_same x y Hxy Hyx) in Hhd.
    injection Hhd as <- _. f_equal.
    inversion H1; inversion H2; subst. apply IH; [done..|].
    intros rank cost. specialize (Hf rank cost). simpl in Hf.
    destruct (Spec.hasKeys rank cost x); [by injection Hf|done].
Qed.

(** C1. The list published after accumulation is the input reordered by
    a total order: colour-class rank first (W=0, U=1, B=2, R=3, G=4,
    multicolour=5, colourless=6; no colour is colourless, one colour has
    the rank of its letter, several colours are multicolour), mana value
    second, and cards that agree on both keep their arrival order.  The
    four-card example comes out as W(1), R(3), UB(2), colourless(1). *)
Theorem sortedCards_color_then_cmc (l : list Card) :
  (Permutation (sortedCards l) l ∧
   StronglySorted Spec.card_le (sortedCards l) ∧
   (∀ a b, Spec.card_le a b ∨ Spec.card_le b a) ∧
   (∀ rank cost,
      List.filter (Spec.hasKeys rank cost) (sortedCards l)
      = List.filter (Spec.hasKeys rank cost) l) ∧
   (∀ l', StronglySorted Spec.card_le l' →
          (∀ rank cost, List.filter (Spec.hasKeys rank cost) l'
                        = List.filter (Spec.hasKeys rank cost) l) →
          l' = sortedCards l)) ∧
  ((∀ c, colors c = Some [] → getColorIndex c = 6) ∧
   (∀ c x r, colors c = Some [x] → Spec.letterRank x = Some r →
             getColorIndex c = r) ∧
   (∀ c x y cs, colors c = Some (x :: y :: cs) → getColorIndex c = 5)) ∧
  sortedCards [plainCard ["R"] 3; plainCard [] 1;
               plainCard ["W"] 1; plainCard ["U"; "B"] 2]
  = [plainCard ["W"] 1; plainCard ["R"] 3;
     plainCard ["U"; "B"] 2; plainCard [] 1].
Proof.
  assert (Hsorted : StronglySorted Spec.card_le (sortedCards l)).
  { apply Sorted_StronglySorted; [apply card_le_trans|].
    apply Sorted_weaken with (R := λ a b, compareCards a b ≤ 0).
    - intros a b. apply compareCards_le.
    - apply sort_sorted. intros x y _ _ Hxy.
      apply compareCards_le.
      destruct (card_le_total y x) as [H|H]; [done|].
      apply compareCards_le in H. lia. }
  assert (Hstable : ∀ rank cost,
            List.filter (Spec.hasKeys rank cost) (sortedCards l)
            = List.filter (Spec.hasKeys rank cost) l).
  { intros rank cost. apply sort_filter.
    intros x y _ _ Hx Hy. apply compareCards_le.
    unfold Spec.hasKeys in *.
    apply andb_true_iff in Hx as [Hx1 Hx2].
    apply andb_true_iff in Hy as [Hy1 Hy2].
    unfold Spec.card_le. lia. }
  split; [|split].
  - split; [apply sort_perm|]. split; [done|]. split; [|split; [done|]].
    + apply card_le_total.
    + intros l' Hl' Hf. apply stable_sorted_unique; [done..|].
      intros rank cost. by rewrite Hf, Hstable.
  - split; [|split].
    + intros c Hc. unfold getColorIndex. by rewrite Hc.
    + intros c x r Hc Hr. unfold getColorIndex. rewrite Hc. simpl.
      by rewrite (lookup_COLOR_ORDER _ _ Hr).
    + intros c x y cs Hc. unfold getColorIndex. by rewrite Hc.
  - vm_compute. reflexivity.
Qed.

End CardOrder.

(** ** The pagination loop *)

Section Pagination.
Import Tracker.

Lemma truthy_Some (uri : string) : uri ≠ "" → JS.truthy (Some uri) = true.
Proof.
  intros Hne. simpl. by destruct (String.eqb_spec uri "").
Qed.

Lemma truthy_true (v : option string) :
  JS.truthy v = true ↔ ∃ uri, v = Some uri ∧ uri ≠ "".
Proof.
  split.
  - destruct v as [uri|]; simpl; [|done].
    destruct (String.eqb_spec uri ""); [done|]. eauto.
  - intros (uri & -> & Hne). by apply truthy_Some.
Qed.

(** The assignment to [nextUri] at the end of the loop body. *)
Lemma nextUri_continues (p : Page) (uri' : string) :
  Spec.continues p uri' →
  (if has_more p && JS.truthy (next_page p) then next_page p else None)
  = Some uri'.
Proof.
  intros (Hm & Hn & Hne). by rewrite Hm, Hn, truthy_Some.
Qed.

Lemma nextUri_stops (p : Page) :
  Spec.gives_no_continuation p →
  (if has_more p && JS.truthy (next_page p) then next_page p else None)
  = None.
Proof.
  intros [Hm|[Hn|Hn]]; rewrite ?Hm, ?Hn; simpl; [done| |];
    by rewrite andb_false_r.
Qed.

Lemma fetchPages_fulfilled w fuel uri acc st p :
  uri ≠ "" →
  search_api w (length (requests st)) uri = Fulfilled p →
  fetchPages w (S fuel) (Some uri) acc st
  = fetchPages w fuel
      (if has_more p && JS.truthy (next_page p) then next_page p else None)
      (match data p with Some page => acc ++ page | None => acc end)%list
      (sent uri st).
Proof.
  intros Hne Hp. cbn [fetchPages]. rewrite (truthy_Some _ Hne).
  unfold mbind, task_bind, bind, fetchJson.
  change (default "" (Some uri)) with uri. by rewrite Hp.
Qed.

Lemma fetchPages_rejected w fuel uri acc st :
  uri ≠ "" →
  search_api w (length (requests st)) uri = Rejected →
  fetchPages w (S fuel) (Some uri) acc st = (Exn, sent uri st).
Proof.
  intros Hne Hp. cbn [fetchPages]. rewrite (truthy_Some _ Hne).
  unfold mbind, task_bind, bind, fetchJson.
  change (default "" (Some uri)) with uri. by rewrite Hp.
Qed.

Lemma fetchPages_null w fuel acc st :
  fetchPages w fuel None acc st = (Val acc, st).
Proof. by destruct fuel. Qed.

Lemma acc_pageCards (p : Page) (acc : list Card) :
  (match data p with Some page => acc ++ page | None => acc end)%list
  = (acc ++ Spec.pageCards p)%list.
Proof.
  unfold Spec.pageCards. destruct (data p); simpl; [done|].
  by rewrite app_nil_r.
Qed.

Lemma requests_sent uri st : length (requests (sent uri st)) = S (length (requests st)).
Proof. simpl. rewrite length_app. simpl. lia. Qed.

(** The loop over a complete chain of pages. *)
Lemma fetchPages_chain w ps :
  ∀ uri acc st fuel,
    uri ≠ "" →
    Spec.PageChain (search_api w) (length (requests st)) uri ps →
    (length ps ≤ fuel)%nat →
    ∃ uris,
      length uris = length ps ∧
      fetchPages w fuel (Some uri) acc st
      = (Val (acc ++ concat (map Spec.pageCards ps))%list,
         {| loading := loading st; currentSet := currentSet st;
            cards := cards st; requests := (requests st ++ uris)%list |}).
Proof.
  induction ps as [|p ps IH]; intros uri acc st fuel Hne Hch Hfuel.
  { inversion Hch. }
  destruct fuel as [|fuel]; [simpl in Hfuel; lia|].
  inversion Hch as [n u q Hp Hstop | n u q uri' qs Hp Hcont Hrest]; subst.
  - rewrite (fetchPages_fulfilled _ _ _ _ _ _ Hne Hp).
    rewrite (nextUri_stops _ Hstop), fetchPages_null, acc_pageCards.
    exists [uri]. simpl. by rewrite app_nil_r.
  - rewrite (fetchPages_fulfilled _ _ _ _ _ _ Hne Hp).
    rewrite (nextUri_continues _ _ Hcont), acc_pageCards.
    destruct Hcont as (_ & _ & Hne').
    rewrite <- requests_sent with (uri := uri) in Hrest.
    destruct (IH uri' (acc ++ Spec.pageCards p)%list (sent uri st) fuel)
      as (uris & Hlen & ->); [done | done | simpl in Hfuel; lia |].
    exists (uri :: uris). split; [simpl; lia|].
    simpl. by rewrite <- !app_assoc.
Qed.

(** The loop over a chain that breaks after the pages [ps]. *)
Lemma fetchPages_broken w ps :
  ∀ uri acc st fuel,
    uri ≠ "" →
    Spec.BrokenChain (search_api w) (length (requests st)) uri ps →
    (length ps < fuel)%nat →
    ∃ uris,
      length uris = S (length ps) ∧
      fetchPages w fuel (Some uri) acc st
      = (Exn,
         {| loading := loading st; currentSet := currentSet st;
            cards := cards st; requests := (requests st ++ uris)%list |}).
Proof.
  induction ps as [|p ps IH]; intros uri acc st fuel Hne Hch Hfuel;
    (destruct fuel as [|fuel]; [simpl in Hfuel; lia|]);
    inversion Hch as [n u Hp | n u q uri' qs Hp Hcont Hrest]; subst.
  - rewrite (fetchPages_rejected _ _ _ _ _ Hne Hp). by exists [uri].
  - rewrite (fetchPages_fulfilled _ _ _ _ _ _ Hne Hp).
    rewrite (nextUri_continues _ _ Hcont), acc_pageCards.
    destruct Hcont as (_ & _ & Hne').
    rewrite <- requests_sent with (uri := uri) in Hrest.
    destruct (IH uri' (acc ++ Spec.pageCards p)%list (sent uri st) fuel)
      as (uris & Hlen & ->); [done | done | simpl in Hfuel; lia |].
    exists (uri :: uris). split; [simpl; lia|].
    simpl. by rewrite <- !app_assoc.
Qed.

End Pagination.

Section Collect.
Import Tracker.

Lemma searchUri_nonempty (t : SetInfo) : searchUri t ≠ "".
Proof. unfold searchUri, SCRYFALL_SEARCH_API. simpl. discriminate. Qed.

(** The loop of the full tracker.  Whatever the paged source, the loop
    requests the first page and then follows each continuation: when the
    source answers with a chain of pages, each but the last saying that
    more exist and naming the next one, the accumulator ends as the
    concatenation of the pages in the order received, after exactly one
    request per page.  Pages of 175, 175 and 50 cards give 400 cards. *)
Theorem fetchPages_collects_every_page
    (w : World) (t : SetInfo) (ps : list Page) (st : State) (fuel : nat) :
  Spec.PageChain (search_api w) (length (requests st)) (searchUri t) ps →
  (length ps ≤ fuel)%nat →
  ∃ st',
    fetchPages w fuel (Some (searchUri t)) [] st
    = (Val (concat (map Spec.pageCards ps)), st') ∧
    length (requests st') = (length (requests st) + length ps)%nat ∧
    (map (λ p, length (Spec.pageCards p)) ps = [175; 175; 50]%nat →
     length (concat (map Spec.pageCards ps)) = 400%nat).
Proof.
  intros Hch Hfuel.
  destruct (fetchPages_chain w ps (searchUri t) [] st fuel)
    as (uris & Hlen & Heq); [apply searchUri_nonempty | done | done |].
  eexists. split; [exact Heq|]. split.
  - simpl. rewrite length_app. lia.
  - intros Hsizes. rewrite length_concat, map_map, Hsizes. reflexivity.
Qed.

Lemma fetchPages_collects_every_page_witness :
  ∃ all st',
    fetchPages (Sample.world Sample.threePages) 3
      (Some (searchUri Sample.xyz)) [] mounted = (Val all, st') ∧
    all = (Spec.pageCards Sample.page1 ++ Spec.pageCards Sample.page2
           ++ Spec.pageCards Sample.page3)%list ∧
    length all = 400%nat ∧
    length (requests st') = 3%nat.
Proof.
  destruct (fetchPages_collects_every_page (Sample.world Sample.threePages)
              Sample.xyz [Sample.page1; Sample.page2; Sample.page3] mounted 3)
    as (st' & Hrun & Hreq & Hsize).
  - apply Spec.chain_next with (uri' := "page2");
      [reflexivity | repeat split; discriminate |].
    apply Spec.chain_next with (uri' := "page3");
      [reflexivity | repeat split; discriminate |].
    apply Spec.chain_last; [reflexivity | by left].
  - simpl. lia.
  - eexists _, st'. split; [exact Hrun|]. split_and!.
    + reflexivity.
    + by apply Hsize.
    + exact Hreq.
Defined.

Lemma fetchData_target w fuel st data t :
  sets_api w = Fulfilled (Some data) →
  targetSet data (clock w) = Some t →
  fetchData w fuel st
  = match fetchPages w fuel (Some (searchUri t)) [] (tracking t st) with
    | (Val l, st') =>
        (Val tt, {| loading := false; currentSet := currentSet st';
                    cards := sortedCards l; requests := requests st' |})
    | (Exn, st') =>
        (Val tt, {| loading := false; currentSet := currentSet st';
                    cards := cards st'; requests := requests st' |})
    | (Pending, st') => (Pending, st')
    end.
Proof.
  intros Hsets Ht.
  unfold fetchData, try_finally, try_catch, mbind, task_bind, bind, mret,
    task_ret, ret.
  rewrite Hsets. cbn -[targetSet fetchPages sortedCards].
  rewrite Ht. cbn -[targetSet fetchPages sortedCards]. unfold tracking.
  match goal with |- context [fetchPages ?a ?b ?c ?d ?e] =>
    by destruct (fetchPages a b c d e) as [[l| |] st']
  end.
Qed.

Lemma fetchData_no_target w fuel st :
  sets_api w = Rejected ∨ sets_api w = Fulfilled None ∨
  (∃ data, sets_api w = Fulfilled (Some data) ∧
           targetSet data (clock w) = None) →
  fetchData w fuel st
  = (Val tt, {| loading := false; currentSet := currentSet st;
                cards := cards st; requests := requests st |}).
Proof.
  unfold fetchData, try_finally, try_catch, mbind, task_bind, bind, mret,
    task_ret, ret.
  intros [H|[H|(data & H & Ht)]]; rewrite H;
    cbn -[targetSet fetchPages sortedCards]; [done|done|].
  by rewrite Ht.
Qed.

(** C5, as the code has it.  When a page request throws in the middle of
    the loop, [setCards] is never reached: the card list stays what it
    was before the fetch and only the loading flag and the target release
    are updated.  When instead a page comes back as a parsed body without
    cards and without continuation (an error object), the loop ends and
    the cards gathered before it are sorted and published. *)
Theorem failed_page_discards_partial_cards
    (w : World) (sets : list SetInfo) (t : SetInfo)
    (ps : list Page) (st : State) (fuel : nat) :
  sets_api w = Fulfilled (Some sets) →
  targetSet sets (clock w) = Some t →
  (length ps < fuel)%nat →
  (Spec.BrokenChain (search_api w) (length (requests st)) (searchUri t) ps →
   ∃ st', fetchData w fuel st = (Val tt, st') ∧
          cards st' = cards st ∧
          loading st' = false ∧ currentSet st' = Some t) ∧
  (∀ e, data e = None →
        Spec.PageChain (search_api w) (length (requests st)) (searchUri t)
          (ps ++ [e]) →
        ∃ st', fetchData w fuel st = (Val tt, st') ∧
               cards st' = sortedCards (concat (map Spec.pageCards ps)) ∧
               loading st' = false ∧ currentSet st' = Some t).
Proof.
  intros Hsets Ht Hfuel. split.
  - intros Hch. rewrite (fetchData_target _ _ _ _ _ Hsets Ht).
    destruct (fetchPages_broken w ps (searchUri t) [] (tracking t st) fuel)
      as (uris & _ & ->); [apply searchUri_nonempty | done | done |].
    eexists. split; [reflexivity|]. by simpl.
  - intros e He Hch. rewrite (fetchData_target _ _ _ _ _ Hsets Ht).
    destruct (fetchPages_chain w (ps ++ [e]) (searchUri t) [] (tracking t st) fuel)
      as (uris & _ & ->); [apply searchUri_nonempty | done | |].
    { rewrite length_app. simpl. lia. }
    eexists. split; [reflexivity|]. simpl. split; [|done].
    rewrite map_app, concat_app. simpl.
    unfold Spec.pageCards at 2. rewrite He. simpl. by rewrite !app_nil_r.
Qed.

Lemma failed_page_discards_partial_cards_witness :
  ∃ st', fetchData (Sample.world Sample.secondPageFails) 2 mounted
         = (Val tt, st') ∧
         cards st' = cards mounted ∧
         loading st' = false ∧ currentSet st' = Some Sample.xyz.
Proof.
  apply (failed_page_discards_partial_cards
           (Sample.world Sample.secondPageFails) [Sample.xyz] Sample.xyz
           [Sample.page1] mounted 2);
    [reflexivity | reflexivity | simpl; lia |].
  apply Spec.broken_later with (uri' := "page2");
    [reflexivity | repeat split; discriminate |].
  apply Spec.broken_here. reflexivity.
Defined.

(** C5, as stated, does not hold: the first page brings 175 cards, the
    request for the second page is rejected, and the card list published
    at the end is empty. *)
Lemma partial_cards_not_published :
  Spec.BrokenChain Sample.secondPageFails 0 (searchUri Sample.xyz)
    [Sample.page1] ∧
  length (Spec.pageCards Sample.page1) = 175%nat ∧
  fetchData (Sample.world Sample.secondPageFails) 2 mounted
  = (Val tt, {| loading := false; currentSet := Some Sample.xyz;
                cards := [];
                requests := [searchUri Sample.xyz; "page2"] |}).
Proof.
  split; [|split].
  - apply Spec.broken_later with (uri' := "page2");
      [reflexivity | repeat split; discriminate |].
    apply Spec.broken_here. reflexivity.
  - reflexivity.
  - vm_compute. reflexivity.
Qed.

End Collect.

(** ** Leaving the loading screen *)

Section Startup.

Local Ltac settled := eexists; split; reflexivity.

Lemma basic_fetchData_settles (w : World) (st : State) :
  ∃ st', Basic.fetchData w st = (Val tt, st') ∧ loading st' = false.
Proof.
  unfold Basic.fetchData, try_finally, try_catch, mbind, task_bind, bind,
    mret, task_ret, ret.
  destruct (sets_api w) as [[sets|]|]; cbn -[Basic.upcoming];
    [|settled..].
  destruct (Basic.upcoming sets (clock w)) as [up|];
    cbn -[Basic.upcoming]; [|settled].
  unfold fetchJson. cbn -[Basic.upcoming].
  match goal with |- context [search_api ?a ?b ?c] =>
    destruct (search_api a b c); cbn; settled
  end.
Qed.

(** C10. However the start-up sequence ends -- the sets request fails,
    no release qualifies, every page arrives, or a page request throws
    -- [fetchData] completes normally with the loading flag false, in
    both variants; and it does end in each of these cases. *)
Theorem loading_cleared_when_fetch_settles (w : World) (st : State) :
  (∀ fuel,
     match Tracker.fetchData w fuel st with
     | (Pending, _) => True
     | (r, st') => r = Val tt ∧ loading st' = false
     end) ∧
  (sets_api w = Rejected ∨ sets_api w = Fulfilled None ∨
   (∃ sets, sets_api w = Fulfilled (Some sets) ∧
            Tracker.targetSet sets (clock w) = None) →
   ∀ fuel, ∃ st', Tracker.fetchData w fuel st = (Val tt, st') ∧
                  loading st' = false) ∧
  (∀ sets t ps fuel,
     sets_api w = Fulfilled (Some sets) →
     Tracker.targetSet sets (clock w) = Some t →
     (Spec.PageChain (search_api w) (length (requests st))
        (Tracker.searchUri t) ps ∧ (length ps ≤ fuel)%nat) ∨
     (Spec.BrokenChain (search_api w) (length (requests st))
        (Tracker.searchUri t) ps ∧ (length ps < fuel)%nat) →
     ∃ st', Tracker.fetchData w fuel st = (Val tt, st') ∧
            loading st' = false) ∧
  (∃ st', Basic.fetchData w st = (Val tt, st') ∧ loading st' = false).
Proof.
  split; [|split; [|split]].
  - intros fuel.
    destruct (sets_api w) as [[sets|]|] eqn:Hsets.
    + destruct (Tracker.targetSet sets (clock w)) as [t|] eqn:Ht.
      * rewrite (fetchData_target _ _ _ _ _ Hsets Ht).
        by destruct (Tracker.fetchPages _ _ _ _ _) as [[l| |] st'].
      * rewrite fetchData_no_target; [done|]. right. right. eauto.
    + rewrite fetchData_no_target; [done|]. right. by left.
    + rewrite fetchData_no_target; [done|]. by left.
  - intros Hcase fuel. rewrite (fetchData_no_target _ _ _ Hcase).
    settled.
  - intros sets t ps fuel Hsets Ht Hcase.
    rewrite (fetchData_target _ _ _ _ _ Hsets Ht).
    destruct Hcase as [[Hch Hfuel]|[Hch Hfuel]].
    + destruct (fetchPages_chain w ps (Tracker.searchUri t) []
                  (tracking t st) fuel) as (uris & _ & ->);
        [apply searchUri_nonempty | done | done |].
      settled.
    + destruct (fetchPages_broken w ps (Tracker.searchUri t) []
                  (tracking t st) fuel) as (uris & _ & ->);
        [apply searchUri_nonempty | done | done |].
      settled.
  - apply basic_fetchData_settles.
Qed.

(** The basic variant asks for one page of cards at most. *)
Remark basic_fetchData_one_page (w : World) (st : State) :
  (length (requests (snd (Basic.fetchData w st)))
   ≤ length (requests st) + 1)%nat.
Proof.
  unfold Basic.fetchData, try_finally, try_catch, mbind, task_bind, bind,
    mret, task_ret, ret.
  destruct (sets_api w) as [[sets|]|]; cbn -[Basic.upcoming]; [|lia..].
  destruct (Basic.upcoming sets (clock w)) as [up|];
    cbn -[Basic.upcoming]; [|lia].
  unfold fetchJson. cbn -[Basic.upcoming].
  match goal with |- context [search_api ?a ?b ?c] =>
    destruct (search_api a b c); cbn; rewrite length_app; simpl; lia
  end.
Qed.

End Startup.

(** ** The release to track *)

Section Resolution.
Import Tracker.

Lemma insert_ext {A} (cmp cmp' : A → A → Z) (x : A) (l : list A) :
  (∀ y, In y l → cmp x y = cmp' x y) →
  JS.insert cmp x l = JS.insert cmp' x l.
Proof.
  induction l as [|y l IH]; intros Heq; [done|].
  simpl. rewrite (Heq y) by (by left).
  destruct (0 <? cmp' x y); [|done].
  f_equal. apply IH. intros z Hz. apply Heq. by right.
Qed.

Lemma sort_ext {A} (cmp cmp' : A → A → Z) (l : list A) :
  (∀ x y, In x l → In y l → cmp x y = cmp' x y) →
  JS.sort cmp l = JS.sort cmp' l.
Proof.
  induction l as [|x l IH]; intros Heq; [done|].
  simpl. fold (JS.sort cmp l) (JS.sort cmp' l).
  rewrite IH by (intros a b Ha Hb; apply Heq; by right).
  apply insert_ext. intros y Hy. apply Heq; [by left|].
  right. by apply sort_In in Hy.
Qed.

Lemma StronglySorted_filter {A} (R : A → A → Prop) (p : A → bool) (l : list A) :
  StronglySorted R l → StronglySorted R (List.filter p l).
Proof.
  induction 1 as [|x l Hs IH Hall]; simpl; [constructor|].
  destruct (p x); [|done]. constructor; [done|].
  rewrite List.Forall_forall in *. intros y Hy%filter_In. apply Hall. tauto.
Qed.


Lemma trackable_includes (s : SetInfo) :
  JS.array_includes ["expansion"; "core"; "masters"] (set_type s) = true
  ↔ Spec.trackable s.
Proof.
  unfold JS.array_includes, Spec.trackable. rewrite existsb_exists.
  split.
  - intros (x & Hx & ->%String.eqb_eq). done.
  - intros H. exists (set_type s). split; [done|]. apply String.eqb_refl.
Qed.

Lemma date_gt_spec (dt : option Z) (t : Z) :
  date_gt dt t = true ↔ ∃ x, dt = Some x ∧ t < x.
Proof.
  destruct dt as [x|]; simpl.
  - rewrite Z.ltb_lt. split; [eauto|]. by intros (? & [= <-] & ?).
  - split; [done|]. by intros (? & ? & ?).
Qed.

Lemma date_ge_spec (dt : option Z) (t : Z) :
  date_ge dt t = true ↔ ∃ x, dt = Some x ∧ t ≤ x.
Proof.
  destruct dt as [x|]; simpl.
  - rewrite Z.leb_le. split; [eauto|]. by intros (? & [= <-] & ?).
  - split; [done|]. by intros (? & ? & ?).
Qed.

Lemma In_candidates (sets : list SetInfo) (now : Z) (s : SetInfo) :
  In s (candidates sets now) ↔
  In s sets ∧ Spec.trackable s ∧
  ∃ x, Spec.releasedOn s x ∧ now - Spec.retention < x.
Proof.
  unfold candidates. rewrite sort_In, !filter_In, trackable_includes.
  rewrite date_gt_spec. unfold Spec.releasedOn.
  change (1000 * 60 * 60 * 24 * 60) with Spec.retention. tauto.
Qed.






(** The basic variant agrees on the example, but only follows releases
    dated strictly after [now], with no fall-back to a recent one. *)
Remark basic_upcoming_strict (now : Z) :
  Basic.upcoming
    [Sample.release "aaa" "expansion" (now + 10 * Spec.day);
     Sample.release "bbb" "expansion" (now + 5 * Spec.day);
     Sample.release "ccc" "unsupported-type" (now + 1 * Spec.day)] now
  = Some (Sample.release "bbb" "expansion" (now + 5 * Spec.day)) ∧
  Basic.upcoming [Sample.release "ddd" "expansion" now] now = None ∧
  targetSet [Sample.release "ddd" "expansion" now] now
  = Some (Sample.release "ddd" "expansion" now).
Proof.
  unfold Basic.upcoming, targetSet, futureSets, candidates, Spec.day,
    byDate, date_diff.
  simpl.
  repeat match goal with
         | |- context [?a <? ?b] => destruct (Z.ltb_spec a b); try lia; simpl
         | |- context [?a <=? ?b] => destruct (Z.leb_spec a b); try lia; simpl
         end.
  done.
Qed.

End Resolution.

(** ** Strings: lower case and substrings *)

Section Strings.

Lemma startsWith_spec (s p : string) :
  JS.startsWith s p = true ↔ ∃ post, s = p +:+ post.
Proof.
  revert s. induction p as [|b p IH]; intros s; simpl.
  - split; [by exists s | done].
  - destruct s as [|a s].
    + split; [done|]. by intros (post & ?).
    + rewrite andb_true_iff, IH. split.
      * intros [->%Ascii.eqb_eq (post & ->)]. by exists post.
      * intros (post & [= -> ->]). split; [apply Ascii.eqb_refl|eauto].
Qed.

Lemma includes_spec (s p : string) :
  JS.includes s p = true ↔ ∃ pre post, s = pre +:+ p +:+ post.
Proof.
  induction s as [|a s IH]; simpl.
  - rewrite orb_false_r, startsWith_spec. split.
    + intros (post & ->). by exists "", post.
    + intros ([|? ?] & post & H); [by exists post | done].
  - rewrite orb_true_iff, startsWith_spec, IH. split.
    + intros [(post & ->)|(pre & post & ->)].
      * by exists "", post.
      * by exists (String a pre), post.
    + intros ([|b pre] & post & H).
      * left. by exists post.
      * right. injection H as -> ->. by exists pre, post.
Qed.

Lemma toLowerCase_app (a b : string) :
  JS.toLowerCase (a +:+ b) = JS.toLowerCase a +:+ JS.toLowerCase b.
Proof. induction a as [|x a IH]; simpl; [done|]. by rewrite IH. Qed.

Lemma toLowerCase_split (s x y : string) :
  JS.toLowerCase s = x +:+ y →
  ∃ a b, s = a +:+ b ∧ JS.toLowerCase a = x ∧ JS.toLowerCase b = y.
Proof.
  revert s. induction x as [|c x IH]; intros s H.
  - change (JS.toLowerCase s = y) in H. by exists "", s.
  - change (JS.toLowerCase s = String c (x +:+ y)) in H.
    destruct s as [|d s]; simpl in H; [done|].
    injection H as Hc (a & b & -> & <- & <-)%IH.
    exists (String d a), b. split_and!; [done| |done].
    simpl. by rewrite Hc.
Qed.

Lemma is_upper_code_capital (n : nat) :
  JS.is_upper_code n = true ↔ Spec.capital n.
Proof.
  unfold JS.is_upper_code, Spec.capital.
  rewrite orb_true_iff, !andb_true_iff, negb_true_iff, !Nat.leb_le,
    Nat.eqb_neq.
  tauto.
Qed.

Lemma code_inj (a b : ascii) : nat_of_ascii a = nat_of_ascii b → a = b.
Proof.
  intros H. rewrite <- (ascii_nat_embedding a), <- (ascii_nat_embedding b).
  by rewrite H.
Qed.

Lemma code_lower_ascii (a : ascii) :
  nat_of_ascii (JS.lower_ascii a)
  = (if JS.is_upper_code (nat_of_ascii a)
     then nat_of_ascii a + 32 else nat_of_ascii a)%nat.
Proof.
  unfold JS.lower_ascii.
  destruct (JS.is_upper_code (nat_of_ascii a)) eqn:E; [|done].
  apply is_upper_code_capital in E. apply nat_ascii_embedding.
  unfold Spec.capital in E. lia.
Qed.

(** Two code units have the same lower-case form exactly when they are
    the same letter up to case. *)
Lemma lower_ascii_same (a b : ascii) :
  JS.lower_ascii a = JS.lower_ascii b ↔ Spec.sameLetter a b.
Proof.
  assert (Hcode : JS.lower_ascii a = JS.lower_ascii b ↔
                  nat_of_ascii (JS.lower_ascii a)
                  = nat_of_ascii (JS.lower_ascii b)).
  { split; [by intros ->|apply code_inj]. }
  assert (Heq : a = b ↔ nat_of_ascii a = nat_of_ascii b).
  { split; [by intros ->|apply code_inj]. }
  rewrite Hcode, !code_lower_ascii.
  unfold Spec.sameLetter, Spec.casePair. rewrite Heq.
  destruct (JS.is_upper_code (nat_of_ascii a)) eqn:Ea,
           (JS.is_upper_code (nat_of_ascii b)) eqn:Eb;
    try apply is_upper_code_capital in Ea;
    try apply is_upper_code_capital in Eb;
    try (apply not_true_iff_false in Ea; rewrite is_upper_code_capital in Ea);
    try (apply not_true_iff_false in Eb; rewrite is_upper_code_capital in Eb);
    unfold Spec.capital in *; lia.
Qed.

Lemma toLowerCase_same (a b : string) :
  JS.toLowerCase a = JS.toLowerCase b ↔ Spec.sameText a b.
Proof.
  revert b. induction a as [|x a IH]; intros [|y b]; simpl; try done.
  rewrite <- IH, <- lower_ascii_same. split.
  - intros Heq. by injection Heq.
  - by intros [-> ->].
Qed.

(** [includes] on the lowered strings is the case-insensitive match. *)
Lemma includes_lower (searchText name : string) :
  JS.includes (JS.toLowerCase name) (JS.toLowerCase searchText) = true
  ↔ Spec.matchesSearch searchText name.
Proof.
  rewrite includes_spec. unfold Spec.matchesSearch. split.
  - intros (pre & post & H).
    apply toLowerCase_split in H as (a & b & -> & <- & H).
    apply toLowerCase_split in H as (m & c & -> & H & <-).
    exists a, m, c. split; [done|]. by apply toLowerCase_same.
  - intros (pre & mid & post & -> & Hmid%toLowerCase_same).
    exists (JS.toLowerCase pre), (JS.toLowerCase post).
    by rewrite !toLowerCase_app, Hmid.
Qed.

Lemma includes_empty (s : string) : JS.includes s "" = true.
Proof. by destruct s. Qed.

End Strings.

(** ** The derived view *)

Section View.
Import Tracker.

Lemma color_test (f : string) (cs : list string) :
  (if String.eqb f "C" then (length cs =? 0)%nat
   else if String.eqb f "M" then (1 <? length cs)%nat
   else (length cs =? 1)%nat && bool_decide (cs !! 0%nat = Some f)) = true
  ↔ Spec.passesColor f cs.
Proof.
  unfold Spec.passesColor.
  destruct (String.eqb_spec f "C") as [->|HC].
  - rewrite Nat.eqb_eq. split.
    + intros Hlen. left. by destruct cs.
    + intros [[_ ->]|[[[=] _]|(? & _)]]; done.
  - destruct (String.eqb_spec f "M") as [->|HM].
    + rewrite Nat.ltb_lt. split; [by eauto|].
      intros [[[=] _]|[[_ ?]|(_ & ? & _)]]; done.
    + rewrite andb_true_iff, Nat.eqb_eq, bool_decide_eq_true. split.
      * intros [Hlen Hhd]. right. right. split_and!; [done..|].
        destruct cs as [|x [|y cs]]; simplify_eq/=. done.
      * intros [[? _]|[[? _]|(_ & _ & ->)]]; done.
Qed.

(** The colours read by the filter are the colours of the card. *)
Lemma cardColors_colorsOf (c : Card) : cardColors c = Spec.colorsOf c.
Proof.
  unfold cardColors, Spec.colorsOf, firstFace.
  destruct (colors c) as [cs|]; [done|].
  destruct (card_faces c) as [[|face faces]|]; simpl; [done| |done].
  by destruct (face_colors face).
Qed.

Lemma keep_visible (searchTerm : string) (activeFilter : option string) (c : Card) :
  keep searchTerm activeFilter c = true ↔ Spec.visible searchTerm activeFilter c.
Proof.
  unfold keep, Spec.visible. rewrite <- includes_lower, <- cardColors_colorsOf.
  destruct (JS.includes _ _); simpl; [|split; [done|by intros [? _]]].
  destruct activeFilter as [f|]; simpl.
  - destruct (String.eqb_spec f "") as [->|Hf]; simpl.
    + split; [|done]. intros _. split; [done|]. by intros f [= <-].
    + rewrite color_test. split.
      * intros Hp. split; [done|]. by intros ? [= <-] _.
      * intros [_ Hp]. by apply Hp.
  - split; [|done]. intros _. split; [done|]. by intros f [=].
Qed.

(** C4. With an active colour filter, a card is kept exactly when it
    matches the search text and: the filter is colourless and the card
    has no colour; or the filter is multicolour and the card has more
    than one colour; or the filter is a colour letter and the card's
    colours are that single letter.  The colours are those of the card
    itself: its top-level [colors] when it has the field.  A white-blue
    card fails the white filter and passes the multicolour filter; a
    red card passes the red filter only, a colourless card the
    colourless filter only. *)
Theorem color_filter_exact (searchTerm f : string) (c : Card) :
  f ≠ "" →
  (keep searchTerm (Some f) c = true ↔
   Spec.matchesSearch searchTerm (name c) ∧
   ((f = "C" ∧ Spec.colorsOf c = []) ∨
    (f = "M" ∧ (1 < length (Spec.colorsOf c))%nat) ∨
    (f ≠ "C" ∧ f ≠ "M" ∧ Spec.colorsOf c = [f]))) ∧
  (∀ cs, colors c = Some cs →
     keep searchTerm (Some f) c = true ↔
     Spec.matchesSearch searchTerm (name c) ∧
     ((f = "C" ∧ cs = []) ∨
      (f = "M" ∧ (1 < length cs)%nat) ∨
      (f ≠ "C" ∧ f ≠ "M" ∧ cs = [f]))) ∧
  (keep "" (Some "W") (Sample.plainCard ["W"; "U"] 2) = false ∧
   keep "" (Some "M") (Sample.plainCard ["W"; "U"] 2) = true) ∧
  map (λ g : string * string, keep "" (Some g.1) (Sample.plainCard ["R"] 1))
      MANA_FILTERS
  = [false; false; false; true; false; false; false] ∧
  map (λ g : string * string, keep "" (Some g.1) (Sample.plainCard [] 0))
      MANA_FILTERS
  = [false; false; false; false; false; true; false] ∧
  map (λ g : string * string,
         keep "" (Some g.1) (Sample.plainCard ["W"; "U"] 2))
      MANA_FILTERS
  = [false; false; false; false; false; false; true].
Proof.
  intros Hf.
  assert (Hmain : keep searchTerm (Some f) c = true ↔
    Spec.matchesSearch searchTerm (name c) ∧
    Spec.passesColor f (Spec.colorsOf c)).
  { rewrite keep_visible. unfold Spec.visible. split.
    - intros [Hs Hc]. split; [done|]. by apply Hc.
    - intros [Hs Hc]. split; [done|]. by intros ? [= <-] _. }
  split_and!; try reflexivity.
  - exact Hmain.
  - intros cs Hcs. rewrite Hmain. unfold Spec.colorsOf. by rewrite Hcs.
Qed.

Lemma color_filter_exact_witness :
  keep "bolt" (Some "R") Sample.bolt = true ∧
  Spec.matchesSearch "bolt" (name Sample.bolt) ∧
  colors Sample.bolt = Some ["R"].
Proof.
  destruct (color_filter_exact "bolt" "R" Sample.bolt ltac:(discriminate))
    as (_ & Hcolors & _).
  destruct (Hcolors ["R"] eq_refl) as [Hkeep _].
  split; [reflexivity|]. split; [|reflexivity].
  exact (proj1 (Hkeep eq_refl)).
Defined.

Lemma filter_sublist {A} (p : A → bool) (l : list A) : sublist (List.filter p l) l.
Proof.
  induction l as [|x l IH]; simpl; [constructor|].
  destruct (p x); by constructor.
Qed.

Lemma sublist_filter_max {A} (p : A → bool) (k l : list A) :
  sublist k l → (∀ x, In x k → p x = true) → sublist k (List.filter p l).
Proof.
  induction 1 as [|x k l Hkl IH|x k l Hkl IH]; intros Hall; simpl.
  - constructor.
  - rewrite (Hall x) by (by left). constructor. apply IH.
    intros y Hy. apply Hall. by right.
  - destruct (p x); [constructor|]; by apply IH.
Qed.

(** C7. The view lists exactly the cards that satisfy every active
    predicate -- the case-insensitive substring match of the search text
    against the name, and the colour filter when one is set -- in the
    order of the input: it is the largest sublist of the input made of
    such cards.  An empty search text with no filter keeps every card;
    "bolt" and "BOLT" find "Lightning Bolt" and "zzzz" finds nothing;
    "Eowyn" is found under either case of its accented initial; search
    and filter combine. *)
Theorem filteredCards_exact
    (cards : list Card) (searchTerm : string) (activeFilter : option string) :
  (∀ c, In c (filteredCards cards searchTerm activeFilter) ↔
        In c cards ∧ Spec.visible searchTerm activeFilter c) ∧
  sublist (filteredCards cards searchTerm activeFilter) cards ∧
  (∀ l, sublist l cards →
        (∀ c, In c l → Spec.visible searchTerm activeFilter c) →
        sublist l (filteredCards cards searchTerm activeFilter)) ∧
  filteredCards cards "" None = cards ∧
  filteredCards [Sample.bolt; Sample.opt] "bolt" None
  = [Sample.bolt] ∧
  Basic.filteredCards cards searchTerm = filteredCards cards searchTerm None ∧
  (filteredCards [Sample.bolt; Sample.opt] "BOLT" None = [Sample.bolt] ∧
   filteredCards [Sample.bolt; Sample.opt] "zzzz" None = [] ∧
   filteredCards [Sample.bolt; Sample.eowyn] Sample.eowyn_small None
   = [Sample.eowyn] ∧
   filteredCards [Sample.bolt; Sample.eowyn] Sample.eowyn_capitals None
   = [Sample.eowyn] ∧
   filteredCards [Sample.bolt; Sample.opt; Sample.eowyn] "o" None
   = [Sample.bolt; Sample.opt; Sample.eowyn] ∧
   filteredCards [Sample.bolt; Sample.opt; Sample.eowyn] "o" (Some "U")
   = [Sample.opt]).
Proof.
  unfold filteredCards. split_and!; try reflexivity.
  - intros c. by rewrite filter_In, keep_visible.
  - apply filter_sublist.
  - intros l Hl Hvis. apply sublist_filter_max; [done|].
    intros c Hc. by apply keep_visible, Hvis.
  - induction cards as [|c cs IH]; [done|]. simpl.
    unfold keep at 1. simpl. rewrite includes_empty. simpl. by rewrite IH.
  - unfold Basic.filteredCards. apply filter_ext. intros c.
    unfold keep. by destruct (JS.includes _ _).
Qed.

(** C6, at a transforming card without top-level colours whose front
    face is red.  The filter and the card tile read the colours and the
    image of the first face; the comparator of the sort does not, and
    ranks the card as colourless (6), so that it sorts after a green
    card although red (3) comes before green (4). *)
Theorem sort_ignores_first_face :
  (∀ c, colors c = None → getColorIndex c = 6) ∧
  (∀ c f fs cs, colors c = None → card_faces c = Some (f :: fs) →
                face_colors f = Some cs → cardColors c = cs) ∧
  colors Sample.redTransform = None ∧
  cardColors Sample.redTransform = ["R"] ∧
  pipColors Sample.redTransform = ["R"] ∧
  keep "" (Some "R") Sample.redTransform = true ∧
  keep "" (Some "C") Sample.redTransform = false ∧
  img Sample.redTransform = Some "front.jpg" ∧
  getColorIndex Sample.redTransform = 6 ∧
  sortedCards [Sample.redTransform; Sample.plainCard ["G"] 5]
  = [Sample.plainCard ["G"] 5; Sample.redTransform].
Proof.
  split_and!; try reflexivity.
  - intros c Hc. unfold getColorIndex. by rewrite Hc.
  - intros c f fs cs Hc Hf Hcs. unfold cardColors, firstFace.
    rewrite Hc, Hf. simpl. by rewrite Hcs.
Qed.

End View.

(** ** The countdown *)

Section Countdown.

Lemma floor_div (a : Z) (k : positive) :
  JS.floor (inject_Z a / inject_Z (Zpos k)) = a / Zpos k.
Proof.
  unfold JS.floor.
  cbv beta iota delta [Qdiv Qmult Qinv inject_Z Qfloor Qnum Qden].
  by rewrite Z.mul_1_r.
Qed.

#[local] Instance Qtrunc_comp : Proper (Qeq ==> eq) JS.Qtrunc.
Proof.
  intros x y Hxy. unfold JS.Qtrunc.
  by rewrite (Qleb_comp 0%Q 0%Q (Qeq_refl 0%Q) x y Hxy), (Qfloor_comp x y Hxy),
    (Qceiling_comp x y Hxy).
Qed.

#[local] Instance floor_comp : Proper (Qeq ==> eq) JS.floor.
Proof. exact Qfloor_comp. Qed.

#[local] Instance rem_comp : Proper (Qeq ==> Qeq ==> Qeq) JS.rem.
Proof.
  intros x x' Hx y y' Hy. unfold JS.rem, Qminus.
  rewrite (Qtrunc_comp (x / y)%Q (x' / y')%Q) by (by apply Qdiv_comp).
  apply Qplus_comp; [done|]. apply Qopp_comp, Qmult_comp; [done|reflexivity].
Qed.

(** Flooring after the remainder is the remainder of the floor. *)
Lemma floor_rem (a : Z) (k n : positive) :
  0 ≤ a →
  JS.floor (JS.rem (inject_Z a / inject_Z (Zpos k)) (inject_Z (Zpos n)))
  = (a / Zpos k) mod Zpos n.
Proof.
  intros Ha. unfold JS.floor, JS.rem, JS.Qtrunc.
  assert (Hnn : Qle_bool 0 (inject_Z a / inject_Z (Z.pos k) / inject_Z (Z.pos n)) = true).
  { apply Qle_bool_iff. unfold Qle, Qdiv, Qmult, Qinv, inject_Z. simpl. lia. }
  rewrite Hnn.
  cbv beta iota delta [Qminus Qplus Qopp Qdiv Qmult Qinv inject_Z Qfloor Qnum Qden].
  rewrite !Pos2Z.inj_mul, !Z.mul_1_r, !Z.mul_1_l.
  rewrite <- Z.div_div by lia.
  set (q := a / Z.pos k).
  replace (a + - (Z.pos n * (q / Z.pos n)) * Z.pos k)
    with (a + (- (Z.pos n * (q / Z.pos n))) * Z.pos k) by lia.
  rewrite Z.div_add by lia. fold q.
  rewrite (Z.mod_eq q (Z.pos n)) by lia. lia.
Qed.

Lemma tick_running (prereleaseDate now : Z) :
  now < prereleaseDate →
  Tracker.tick prereleaseDate now
  = {| Tracker.d := (prereleaseDate - now) / 86400000;
       Tracker.h := ((prereleaseDate - now) / 3600000) mod 24;
       Tracker.m := ((prereleaseDate - now) / 60000) mod 60;
       Tracker.s := ((prereleaseDate - now) / 1000) mod 60 |}.
Proof.
  intros Hlt. unfold Tracker.tick.
  destruct (Z.leb_spec (prereleaseDate - now) 0) as [|_]; [lia|].
  set (diff := prereleaseDate - now).
  assert (Hd : (inject_Z diff / (1000 * 60 * 60 * 24) == inject_Z diff / inject_Z 86400000)%Q) by reflexivity.
  assert (Hh : (inject_Z diff / (1000 * 60 * 60) == inject_Z diff / inject_Z 3600000)%Q) by reflexivity.
  assert (Hm : (inject_Z diff / 1000 / 60 == inject_Z diff / inject_Z 60000)%Q).
  { unfold Qeq, Qdiv, Qmult, Qinv, inject_Z. simpl. lia. }
  rewrite Hd, Hh, Hm.
  change 24%Q with (inject_Z 24). change 60%Q with (inject_Z 60).
  change 1000%Q with (inject_Z 1000).
  by rewrite floor_div, !floor_rem by lia.
Qed.

(** C8. The countdown shows four non-negative integers.  They are all 0
    once the prerelease instant is reached (equality included); before
    it, the milliseconds left are split into whole days, hours below 24,
    minutes below 60 and seconds below 60.  One day, two hours, three
    minutes and four seconds before the instant it shows 1, 2, 3, 4. *)
Theorem tick_countdown (prereleaseDate now : Z) :
  (0 ≤ Tracker.d (Tracker.tick prereleaseDate now) ∧
   0 ≤ Tracker.h (Tracker.tick prereleaseDate now) < 24 ∧
   0 ≤ Tracker.m (Tracker.tick prereleaseDate now) < 60 ∧
   0 ≤ Tracker.s (Tracker.tick prereleaseDate now) < 60) ∧
  (prereleaseDate ≤ now →
   Tracker.tick prereleaseDate now
   = {| Tracker.d := 0; Tracker.h := 0; Tracker.m := 0; Tracker.s := 0 |}) ∧
  (now < prereleaseDate →
   Tracker.tick prereleaseDate now
   = {| Tracker.d := (prereleaseDate - now) / (1000 * 60 * 60 * 24);
        Tracker.h := ((prereleaseDate - now) / (1000 * 60 * 60)) mod 24;
        Tracker.m := ((prereleaseDate - now) / (1000 * 60)) mod 60;
        Tracker.s := ((prereleaseDate - now) / 1000) mod 60 |} ∧
   prereleaseDate - now
   = Tracker.d (Tracker.tick prereleaseDate now) * (1000 * 60 * 60 * 24)
     + Tracker.h (Tracker.tick prereleaseDate now) * (1000 * 60 * 60)
     + Tracker.m (Tracker.tick prereleaseDate now) * (1000 * 60)
     + Tracker.s (Tracker.tick prereleaseDate now) * 1000
     + (prereleaseDate - now) mod 1000) ∧
  Tracker.tick (now + (1 * Spec.day + 2 * 3600000 + 3 * 60000 + 4 * 1000)) now
  = {| Tracker.d := 1; Tracker.h := 2; Tracker.m := 3; Tracker.s := 4 |}.
Proof.
  assert (Hzero : prereleaseDate ≤ now →
    Tracker.tick prereleaseDate now
    = {| Tracker.d := 0; Tracker.h := 0; Tracker.m := 0; Tracker.s := 0 |}).
  { intros Hle. unfold Tracker.tick.
    by destruct (Z.leb_spec (prereleaseDate - now) 0) as [_|]; [|lia]. }
  split; [|split; [exact Hzero|split]].
  - destruct (Z.le_gt_cases prereleaseDate now) as [Hle|Hlt].
    + rewrite Hzero by done. simpl. lia.
    + rewrite tick_running by done. simpl.
      set (diff := prereleaseDate - now).
      pose proof (Z.div_pos diff 86400000 ltac:(lia) ltac:(lia)).
      pose proof (Z.mod_pos_bound (diff / 3600000) 24 ltac:(lia)).
      pose proof (Z.mod_pos_bound (diff / 60000) 60 ltac:(lia)).
      pose proof (Z.mod_pos_bound (diff / 1000) 60 ltac:(lia)).
      lia.
  - intros Hlt. rewrite tick_running by done. split; [done|]. simpl.
    set (diff := prereleaseDate - now).
    assert (E1 : diff / 1000 / 60 = diff / 60000)
      by (by rewrite Z.div_div by lia).
    assert (E2 : diff / 60000 / 60 = diff / 3600000)
      by (by rewrite Z.div_div by lia).
    assert (E3 : diff / 3600000 / 24 = diff / 86400000)
      by (by rewrite Z.div_div by lia).
    pose proof (Z.div_mod diff 1000 ltac:(lia)).
    pose proof (Z.div_mod (diff / 1000) 60 ltac:(lia)).
    pose proof (Z.div_mod (diff / 60000) 60 ltac:(lia)).
    pose proof (Z.div_mod (diff / 3600000) 24 ltac:(lia)).
    rewrite E1, E2, E3 in *. lia.
  - rewrite tick_running by (unfold Spec.day; lia).
    replace (now + (1 * Spec.day + 2 * 3600000 + 3 * 60000 + 4 * 1000) - now)
      with 93784000 by (unfold Spec.day; lia).
    reflexivity.
Qed.

End Countdown.

(** ** Selection *)

Section Selection.

(** C9. Toggling adds an absent id and removes a present one, leaves
    every other id alone, and toggling the same id twice gives back the
    set one started from. *)
Theorem toggleSelection_twice (selectedCards : gset string) (id : string) :
  (id ∉ selectedCards → id ∈ Tracker.toggleSelection selectedCards id) ∧
  (id ∈ selectedCards → id ∉ Tracker.toggleSelection selectedCards id) ∧
  (∀ other, other ≠ id →
     other ∈ Tracker.toggleSelection selectedCards id ↔ other ∈ selectedCards) ∧
  Tracker.toggleSelection (Tracker.toggleSelection selectedCards id) id
  = selectedCards.
Proof.
  unfold Tracker.toggleSelection. split_and!.
  - intros Hid. rewrite bool_decide_eq_false_2 by done. set_solver.
  - intros Hid. rewrite bool_decide_eq_true_2 by done. set_solver.
  - intros other Hne. case_bool_decide; set_solver.
  - destruct (decide (id ∈ selectedCards)) as [Hin|Hout].
    + rewrite (bool_decide_eq_true_2 _ Hin).
      rewrite bool_decide_eq_false_2 by set_solver.
      apply set_eq. intros x. destruct (decide (x = id)); set_solver.
    + rewrite (bool_decide_eq_false_2 _ Hout).
      rewrite bool_decide_eq_true_2 by set_solver.
      set_solver.
Qed.

End Selection.

(** * Further properties of the code *)

(** ** The start-up sequence, end to end *)

Section StartupOutcome.
Import Tracker.

Lemma sortedCards_sorted (l : list Card) :
  StronglySorted Spec.card_le (sortedCards l).
Proof.
  apply Sorted_StronglySorted; [apply card_le_trans|].
  apply Sorted_weaken with (R := λ a b, compareCards a b ≤ 0).
  - intros a b. apply compareCards_le.
  - apply sort_sorted. intros x y _ _ Hxy. apply compareCards_le.
    destruct (card_le_total y x) as [H|H]; [done|].
    apply compareCards_le in H. lia.
Qed.

Lemma sortedCards_stable (l : list Card) (rank cost : Z) :
  List.filter (Spec.hasKeys rank cost) (sortedCards l)
  = List.filter (Spec.hasKeys rank cost) l.
Proof.
  apply sort_filter. intros x y _ _ Hx Hy. apply compareCards_le.
  unfold Spec.hasKeys in *.
  apply andb_true_iff in Hx as [Hx1 Hx2].
  apply andb_true_iff in Hy as [Hy1 Hy2].
  unfold Spec.card_le. lia.
Qed.

(** X1. When the sets request succeeds, a release qualifies and the
    source answers with a complete chain of pages, [fetchData] ends
    normally with the loading flag cleared, that release recorded, and
    as card list the sorted rearrangement of every card of every page:
    nothing is dropped, nothing is deduplicated, and what was listed
    before is replaced.  One request was sent per page. *)
Theorem fetchData_publishes_all_pages_sorted
    (w : World) (sets : list SetInfo) (t : SetInfo)
    (ps : list Page) (st : State) (fuel : nat) :
  sets_api w = Fulfilled (Some sets) →
  targetSet sets (clock w) = Some t →
  Spec.PageChain (search_api w) (length (requests st)) (searchUri t) ps →
  (length ps ≤ fuel)%nat →
  ∃ st',
    fetchData w fuel st = (Val tt, st') ∧
    loading st' = false ∧ currentSet st' = Some t ∧
    cards st' = sortedCards (concat (map Spec.pageCards ps)) ∧
    Permutation (cards st') (concat (map Spec.pageCards ps)) ∧
    StronglySorted Spec.card_le (cards st') ∧
    length (requests st') = (length (requests st) + length ps)%nat.
Proof.
  intros Hsets Ht Hch Hfuel.
  rewrite (fetchData_target _ _ _ _ _ Hsets Ht).
  destruct (fetchPages_chain w ps (searchUri t) [] (tracking t st) fuel)
    as (uris & Hlen & ->); [apply searchUri_nonempty | done | done |].
  eexists. split; [reflexivity|]. simpl. split_and!; try done.
  - apply sort_perm.
  - apply sortedCards_sorted.
  - rewrite length_app. lia.
Qed.

Lemma fetchData_publishes_all_pages_sorted_witness :
  ∃ st',
    fetchData (Sample.world Sample.threePages) 3 mounted = (Val tt, st') ∧
    loading st' = false ∧ currentSet st' = Some Sample.xyz ∧
    length (cards st') = 400%nat ∧
    length (requests st') = 3%nat.
Proof.
  destruct (fetchData_publishes_all_pages_sorted
              (Sample.world Sample.threePages) [Sample.xyz] Sample.xyz
              [Sample.page1; Sample.page2; Sample.page3] mounted 3)
    as (st' & Hrun & Hload & Hset & Hcards & Hperm & _ & Hreq).
  - reflexivity.
  - reflexivity.
  - apply Spec.chain_next with (uri' := "page2");
      [reflexivity | repeat split; discriminate |].
    apply Spec.chain_next with (uri' := "page3");
      [reflexivity | repeat split; discriminate |].
    apply Spec.chain_last; [reflexivity | by left].
  - simpl. lia.
  - exists st'. split_and!; [done..| |done].
    by rewrite (Permutation_length Hperm).
Defined.

Lemma targetSet_none (sets : list SetInfo) (now : Z) :
  (∀ s ds, In s sets → Spec.trackable s → Spec.releasedOn s ds →
           ds ≤ now - Spec.retention) →
  targetSet sets now = None.
Proof.
  intros Hold.
  assert (HC : candidates sets now = []).
  { destruct (candidates sets now) as [|x l] eqn:E; [done|].
    assert (Hx : In x (candidates sets now)) by (rewrite E; by left).
    apply In_candidates in Hx as (Hin & Htr & ds & Hds & Hlt).
    specialize (Hold x ds Hin Htr Hds). lia. }
  unfold targetSet, futureSets. by rewrite HC.
Qed.

(** X2. When the sets request fails, or its body has no [data], or no
    trackable release is dated within the last sixty days or later,
    [fetchData] sends no card request and leaves the recorded release
    and the card list as they were; only the loading flag is cleared. *)
Theorem fetchData_without_target_sends_nothing
    (w : World) (st : State) (fuel : nat) :
  sets_api w = Rejected ∨ sets_api w = Fulfilled None ∨
  (∃ sets, sets_api w = Fulfilled (Some sets) ∧
     ∀ s ds, In s sets → Spec.trackable s → Spec.releasedOn s ds →
             ds ≤ clock w - Spec.retention) →
  fetchData w fuel st
  = (Val tt, {| loading := false; currentSet := currentSet st;
                cards := cards st; requests := requests st |}).
Proof.
  intros Hcase. apply fetchData_no_target.
  destruct Hcase as [H|[H|(sets & H & Hold)]]; [by left | right; by left |].
  right. right. exists sets. split; [done|]. by apply targetSet_none.
Qed.

Lemma fetchData_without_target_sends_nothing_witness :
  fetchData Sample.staleWorld 5 mounted
  = (Val tt, {| loading := false; currentSet := None;
                cards := []; requests := [] |}).
Proof.
  apply (fetchData_without_target_sends_nothing Sample.staleWorld mounted 5).
  right. right. eexists. split; [reflexivity|].
  intros s ds [<-|[<-|[]]] Htr Hds.
  - injection Hds as <-. vm_compute. discriminate.
  - destruct Htr as [H|[H|[H|[]]]]; discriminate.
Defined.

End StartupOutcome.

(** ** The basic variant *)

Section BasicVariant.

Lemma sort_byDate_sorted (l : list SetInfo) :
  (∀ x, In x l → ∃ t, released_at x = Some t) →
  StronglySorted (λ a b, Spec.timeOf a ≤ Spec.timeOf b) (JS.sort byDate l).
Proof.
  intros Hdated.
  rewrite (sort_ext byDate (λ a b, Spec.timeOf a - Spec.timeOf b)).
  - apply Sorted_StronglySorted; [intros a b c; lia|].
    apply Sorted_weaken with (R := λ a b, Spec.timeOf a - Spec.timeOf b ≤ 0);
      [intros; lia|].
    apply sort_sorted. intros; lia.
  - intros x y [tx Hx]%Hdated [ty Hy]%Hdated.
    unfold byDate, Spec.timeOf. by rewrite Hx, Hy.
Qed.

Lemma basicTrackable_includes (s : SetInfo) :
  JS.array_includes ["expansion"; "core"; "masters"; "commander"] (set_type s)
  = true ↔ Spec.basicTrackable s.
Proof.
  unfold JS.array_includes, Spec.basicTrackable. rewrite existsb_exists.
  split.
  - intros (x & Hx & ->%String.eqb_eq). done.
  - intros H. exists (set_type s). split; [done|]. apply String.eqb_refl.
Qed.

(** X3. The basic variant tracks the earliest release of a followed kind
    (expansion, core, masters, commander) dated strictly after [now];
    when there is none it tracks nothing: a release dated [now] or
    earlier is never chosen. *)
Theorem basic_upcoming_earliest_future (sets : list SetInfo) (now : Z) :
  match Basic.upcoming sets now with
  | Some t =>
      In t sets ∧ Spec.basicTrackable t ∧
      ∃ dt, Spec.releasedOn t dt ∧ now < dt ∧
        ∀ s ds, In s sets → Spec.basicTrackable s → Spec.releasedOn s ds →
                now < ds → dt ≤ ds
  | None =>
      ∀ s ds, In s sets → Spec.basicTrackable s → Spec.releasedOn s ds →
              ds ≤ now
  end.
Proof.
  unfold Basic.upcoming.
  set (F := List.filter _ sets).
  assert (HF : ∀ s, In s F ↔
            In s sets ∧ Spec.basicTrackable s ∧
            ∃ x, Spec.releasedOn s x ∧ now < x).
  { intros s. unfold F. rewrite filter_In, andb_true_iff,
      basicTrackable_includes, date_gt_spec. tauto. }
  assert (Hsorted : StronglySorted (λ a b, Spec.timeOf a ≤ Spec.timeOf b)
                      (JS.sort byDate F)).
  { apply sort_byDate_sorted. intros x (_ & _ & t & Ht & _)%HF. eauto. }
  destruct (JS.sort byDate F) as [|t rest] eqn:E; simpl.
  - intros s ds Hs Htr Hds.
    destruct (Z.le_gt_cases ds now) as [|Hgt]; [done|].
    assert (HsF : In s F) by (apply HF; eauto 6).
    apply (sort_In byDate) in HsF. by rewrite E in HsF.
  - assert (HtF : In t F) by (apply (sort_In byDate); rewrite E; by left).
    apply HF in HtF as (Hin & Htr & dt & Hdt & Hgt).
    split_and!; [done..|]. exists dt. split_and!; [done..|].
    intros s ds Hs Hstr Hds Hsgt.
    assert (HsF : In s F) by (apply HF; eauto 6).
    apply (sort_In byDate) in HsF. rewrite E in HsF.
    inversion Hsorted as [|? ? _ Hall]; subst.
    unfold Spec.releasedOn in *.
    destruct HsF as [<-|HsF].
    + rewrite Hds in Hdt. injection Hdt as ->. lia.
    + rewrite List.Forall_forall in Hall. specialize (Hall s HsF).
      unfold Spec.timeOf in Hall. by rewrite Hds, Hdt in Hall.
Qed.

(** X4. Once the basic variant has found its release, it records it and
    asks for one page.  If the page arrives, its cards are shown in the
    order received, whether or not the source says that more pages
    exist; if the request is rejected, the card list stays as it was,
    while the release stays recorded. *)
Theorem basic_fetchData_first_page_only
    (w : World) (sets : list SetInfo) (up : SetInfo)
    (p : Page) (rest : list Page) (st : State) :
  sets_api w = Fulfilled (Some sets) →
  Basic.upcoming sets (clock w) = Some up →
  (Spec.PageChain (search_api w) (length (requests st))
     (Basic.searchUri up) (p :: rest) →
   Basic.fetchData w st
   = (Val tt, {| loading := false; currentSet := Some up;
                 cards := Spec.pageCards p;
                 requests := (requests st ++ [Basic.searchUri up])%list |})) ∧
  (search_api w (length (requests st)) (Basic.searchUri up) = Rejected →
   Basic.fetchData w st
   = (Val tt, {| loading := false; currentSet := Some up;
                 cards := cards st;
                 requests := (requests st ++ [Basic.searchUri up])%list |})).
Proof.
  intros Hsets Hup.
  assert (Hrun : ∀ r,
    search_api w (length (requests st)) (Basic.searchUri up) = r →
    Basic.fetchData w st
    = (Val tt, {| loading := false; currentSet := Some up;
                  cards := match r with
                           | Fulfilled p => Spec.pageCards p
                           | Rejected => cards st
                           end;
                  requests := (requests st ++ [Basic.searchUri up])%list |})).
  { intros r Hr.
    unfold Basic.fetchData, try_finally, try_catch, mbind, task_bind, bind,
      mret, task_ret, ret.
    rewrite Hsets. cbn -[Basic.upcoming Basic.searchUri].
    rewrite Hup. cbn -[Basic.upcoming Basic.searchUri].
    unfold fetchJson. cbn -[Basic.upcoming Basic.searchUri].
    rewrite Hr. by destruct r. }
  split.
  - intros Hch.
    inversion Hch as [? ? ? Hp _|? ? ? ? ? Hp _ _]; subst;
      by rewrite (Hrun _ Hp).
  - intros Hrej. by rewrite (Hrun _ Hrej).
Qed.

Lemma basic_fetchData_first_page_only_witness :
  Basic.fetchData
    {| sets_api := Fulfilled (Some [Sample.xyz]); clock := 0;
       search_api := Sample.basicPages |} mounted
  = (Val tt, {| loading := false; currentSet := Some Sample.xyz;
                cards := Spec.pageCards Sample.page1;
                requests := [Basic.searchUri Sample.xyz] |}).
Proof.
  apply (proj1 (basic_fetchData_first_page_only
           {| sets_api := Fulfilled (Some [Sample.xyz]); clock := 0;
              search_api := Sample.basicPages |}
           [Sample.xyz] Sample.xyz
           Sample.page1 [Sample.page2; Sample.page3] mounted
           eq_refl eq_refl)).
  apply Spec.chain_next with (uri' := "page2");
    [reflexivity | repeat split; discriminate |].
  apply Spec.chain_next with (uri' := "page3");
    [reflexivity | repeat split; discriminate |].
  apply Spec.chain_last; [reflexivity | by left].
Defined.

End BasicVariant.

(** ** The two collectors side by side *)

Section Collectors.

Lemma basic_fetchData_run (w : World) (sets : list SetInfo) (up : SetInfo)
    (st : State) (r : Outcome Page) :
  sets_api w = Fulfilled (Some sets) →
  Basic.upcoming sets (clock w) = Some up →
  search_api w (length (requests st)) (Basic.searchUri up) = r →
  Basic.fetchData w st
  = (Val tt, {| loading := false; currentSet := Some up;
                cards := match r with
                         | Fulfilled p => Spec.pageCards p
                         | Rejected => cards st
                         end;
                requests := (requests st ++ [Basic.searchUri up])%list |}).
Proof.
  intros Hsets Hup Hr.
  unfold Basic.fetchData, try_finally, try_catch, mbind, task_bind, bind,
    mret, task_ret, ret.
  rewrite Hsets. cbn -[Basic.upcoming Basic.searchUri].
  rewrite Hup. cbn -[Basic.upcoming Basic.searchUri].
  unfold fetchJson. cbn -[Basic.upcoming Basic.searchUri].
  rewrite Hr. by destruct r.
Qed.

(** C2, as the code has it.  The full tracker loops: for every paged
    source answering with a chain of pages, it fetches page after page,
    following each continuation and stopping at the page that gives
    none, and its accumulator ends as the concatenation of all pages in
    the order received, after one request per page (400 cards for pages
    of 175, 175 and 50).  The basic variant does not loop: it sends one
    request and publishes the cards of the first page only, whatever
    that page says about further pages (175 cards of the 400). *)
Theorem pages_collected_by_each_variant
    (w : World) (t : SetInfo) (st : State) :
  (∀ ps fuel,
     Spec.PageChain (search_api w) (length (requests st))
       (Tracker.searchUri t) ps →
     (length ps ≤ fuel)%nat →
     ∃ st',
       Tracker.fetchPages w fuel (Some (Tracker.searchUri t)) [] st
       = (Val (concat (map Spec.pageCards ps)), st') ∧
       length (requests st') = (length (requests st) + length ps)%nat ∧
       (map (λ p, length (Spec.pageCards p)) ps = [175; 175; 50]%nat →
        length (concat (map Spec.pageCards ps)) = 400%nat)) ∧
  (∀ sets p rest,
     sets_api w = Fulfilled (Some sets) →
     Basic.upcoming sets (clock w) = Some t →
     Spec.PageChain (search_api w) (length (requests st))
       (Basic.searchUri t) (p :: rest) →
     Basic.fetchData w st
     = (Val tt, {| loading := false; currentSet := Some t;
                   cards := Spec.pageCards p;
                   requests := (requests st ++ [Basic.searchUri t])%list |}) ∧
     (map (λ p, length (Spec.pageCards p)) (p :: rest) = [175; 175; 50]%nat →
      length (Spec.pageCards p) = 175%nat)).
Proof.
  split.
  - intros ps fuel Hch Hfuel.
    destruct (fetchPages_chain w ps (Tracker.searchUri t) [] st fuel)
      as (uris & Hlen & Heq); [apply searchUri_nonempty | done | done |].
    eexists. split; [exact Heq|]. split.
    + simpl. rewrite length_app. lia.
    + intros Hsizes. rewrite length_concat, map_map, Hsizes. reflexivity.
  - intros sets p rest Hsets Hup Hch. split.
    + inversion Hch as [? ? ? Hp _|? ? ? ? ? Hp _ _]; subst;
        by rewrite (basic_fetchData_run _ _ _ _ _ Hsets Hup Hp).
    + intros Hsizes. simpl in Hsizes. by injection Hsizes.
Qed.

Lemma pages_collected_by_each_variant_witness :
  (∃ all st',
     Tracker.fetchPages (Sample.world Sample.threePages) 3
       (Some (Tracker.searchUri Sample.xyz)) [] mounted = (Val all, st') ∧
     length all = 400%nat ∧ length (requests st') = 3%nat) ∧
  (∃ st',
     Basic.fetchData (Sample.world Sample.basicPages) mounted = (Val tt, st') ∧
     length (cards st') = 175%nat ∧ length (requests st') = 1%nat).
Proof.
  split.
  - destruct (proj1 (pages_collected_by_each_variant
                       (Sample.world Sample.threePages) Sample.xyz mounted)
                [Sample.page1; Sample.page2; Sample.page3] 3%nat)
      as (st' & Hrun & Hreq & Hsize).
    + apply Spec.chain_next with (uri' := "page2");
        [reflexivity | repeat split; discriminate |].
      apply Spec.chain_next with (uri' := "page3");
        [reflexivity | repeat split; discriminate |].
      apply Spec.chain_last; [reflexivity | by left].
    + simpl. lia.
    + eexists _, st'. split; [exact Hrun|]. split; [by apply Hsize | exact Hreq].
  - destruct (proj2 (pages_collected_by_each_variant
                       (Sample.world Sample.basicPages) Sample.xyz mounted)
                [Sample.xyz] Sample.page1 [Sample.page2; Sample.page3]
                eq_refl eq_refl)
      as (Hrun & Hsize).
    + apply Spec.chain_next with (uri' := "page2");
        [reflexivity | repeat split; discriminate |].
      apply Spec.chain_next with (uri' := "page3");
        [reflexivity | repeat split; discriminate |].
      apply Spec.chain_last; [reflexivity | by left].
    + eexists. split; [exact Hrun|]. split; [by apply Hsize | reflexivity].
Defined.

(** C2, as stated, does not hold of the basic variant: its source has
    three pages of 175, 175 and 50 cards with [has_more] true, true and
    false, 400 cards in all, and the card list published at the end
    holds the 175 cards of the first page, after a single request. *)
Lemma basic_variant_stops_after_first_page :
  Spec.PageChain Sample.basicPages 0 (Basic.searchUri Sample.xyz)
    [Sample.page1; Sample.page2; Sample.page3] ∧
  map has_more [Sample.page1; Sample.page2; Sample.page3]
  = [true; true; false] ∧
  length (concat (map Spec.pageCards
                    [Sample.page1; Sample.page2; Sample.page3])) = 400%nat ∧
  Basic.fetchData (Sample.world Sample.basicPages) mounted
  = (Val tt, {| loading := false; currentSet := Some Sample.xyz;
                cards := Spec.pageCards Sample.page1;
                requests := [Basic.searchUri Sample.xyz] |}) ∧
  length (Spec.pageCards Sample.page1) = 175%nat.
Proof.
  split_and!; try reflexivity.
  apply Spec.chain_next with (uri' := "page2");
    [reflexivity | repeat split; discriminate |].
  apply Spec.chain_next with (uri' := "page3");
    [reflexivity | repeat split; discriminate |].
  apply Spec.chain_last; [reflexivity | by left].
Qed.

End Collectors.

(** ** Sorting and filtering together *)

Section SortAndFilter.
Import Tracker.

Lemma filter_filter_comm {A} (p q : A → bool) (l : list A) :
  List.filter p (List.filter q l) = List.filter q (List.filter p l).
Proof.
  induction l as [|x l IH]; [done|]. simpl.
  destruct (q x) eqn:Hq, (p x) eqn:Hp; simpl; rewrite ?Hq, ?Hp, IH; done.
Qed.

(** X5. Filtering the sorted list gives the same list as sorting the
    filtered cards: the view of a sorted gallery is itself in colour and
    mana-value order, whatever the search text and the filter.  Sorting
    a second time changes nothing. *)
Theorem filteredCards_of_sorted
    (l : list Card) (searchTerm : string) (activeFilter : option string) :
  filteredCards (sortedCards l) searchTerm activeFilter
  = sortedCards (filteredCards l searchTerm activeFilter) ∧
  StronglySorted Spec.card_le
    (filteredCards (sortedCards l) searchTerm activeFilter) ∧
  sortedCards (sortedCards l) = sortedCards l.
Proof.
  assert (Hs : StronglySorted Spec.card_le
                 (filteredCards (sortedCards l) searchTerm activeFilter)).
  { apply StronglySorted_filter, sortedCards_sorted. }
  split_and!; [|done|].
  - apply stable_sorted_unique; [done | apply sortedCards_sorted |].
    intros rank cost. unfold filteredCards.
    rewrite filter_filter_comm, !sortedCards_stable.
    apply filter_filter_comm.
  - apply stable_sorted_unique; [apply sortedCards_sorted.. |].
    intros rank cost. by rewrite sortedCards_stable.
Qed.

(** X10. The comparator of the sort is consistent: swapping its
    arguments negates the result, a card compares equal to itself, the
    result is 0 exactly for equal colour rank and mana value, and "not
    after" is transitive. *)
Theorem compareCards_consistent (a b c : Card) :
  compareCards a b = - compareCards b a ∧
  compareCards a a = 0 ∧
  (compareCards a b = 0 ↔
   getColorIndex a = getColorIndex b ∧ cmc a = cmc b) ∧
  (compareCards a b ≤ 0 → compareCards b c ≤ 0 → compareCards a c ≤ 0).
Proof.
  unfold compareCards.
  destruct (Z.eqb_spec (getColorIndex a) (getColorIndex b)),
           (Z.eqb_spec (getColorIndex b) (getColorIndex a)),
           (Z.eqb_spec (getColorIndex b) (getColorIndex c)),
           (Z.eqb_spec (getColorIndex a) (getColorIndex c)),
           (Z.eqb_spec (getColorIndex a) (getColorIndex a));
    simpl; lia.
Qed.

End SortAndFilter.

(** ** Search text and mana filters *)

Section Filters.
Import Tracker.

Lemma append_assoc (a b c : string) : (a +:+ b) +:+ c = a +:+ (b +:+ c).
Proof.
  induction a as [|x a IH]; [done|].
  change (String x ((a +:+ b) +:+ c) = String x (a +:+ (b +:+ c))).
  by rewrite IH.
Qed.

Lemma matchesSearch_shorter (s ext name : string) :
  (Spec.matchesSearch (s +:+ ext) name → Spec.matchesSearch s name) ∧
  (Spec.matchesSearch (ext +:+ s) name → Spec.matchesSearch s name).
Proof.
  split; intros (pre & mid & post & -> & Hmid%toLowerCase_same);
    rewrite toLowerCase_app in Hmid;
    apply toLowerCase_split in Hmid as (a & b & -> & Ha & Hb).
  - exists pre, a, (b +:+ post). split; [by rewrite append_assoc|].
    by apply toLowerCase_same.
  - exists (pre +:+ a), b, post. split; [by rewrite !append_assoc|].
    by apply toLowerCase_same.
Qed.

(** X6. Typing more characters never brings a card back: the view for a
    search text extended at either end is a sublist of the view for the
    shorter text, under the same filter. *)
Theorem longer_search_narrows
    (cards : list Card) (s ext : string) (activeFilter : option string) :
  sublist (filteredCards cards (s +:+ ext) activeFilter)
          (filteredCards cards s activeFilter) ∧
  sublist (filteredCards cards (ext +:+ s) activeFilter)
          (filteredCards cards s activeFilter).
Proof.
  unfold filteredCards.
  split; (apply sublist_filter_max; [apply filter_sublist|]);
    intros c [_ Hc]%filter_In; apply keep_visible;
    apply keep_visible in Hc as [Hs Hf]; (split; [|done]).
  - exact (proj1 (matchesSearch_shorter s ext (name c)) Hs).
  - exact (proj2 (matchesSearch_shorter s ext (name c)) Hs).
Qed.

End Filters.

(** ** The mana filter buttons *)

Section ManaFilters.
Import Tracker.

Lemma passesColor_unique (f1 f2 : string) (cs : list string) :
  Spec.passesColor f1 cs → Spec.passesColor f2 cs → f1 = f2.
Proof.
  unfold Spec.passesColor.
  intros [[-> ->]|[[-> Hlen]|(H1 & H2 & ->)]]
         [[-> Hcs]|[[-> Hlen']|(H1' & H2' & Hcs)]];
    simplify_eq/=; try done; lia.
Qed.

(** X7. No card passes two different mana filters: for any search text,
    the lists shown under two distinct filters have no card in common. *)
Theorem mana_filters_exclusive (s f1 f2 : string) (c : Card) :
  f1 ≠ "" → f2 ≠ "" →
  keep s (Some f1) c = true → keep s (Some f2) c = true → f1 = f2.
Proof.
  intros Hf1 Hf2 [_ H1]%keep_visible [_ H2]%keep_visible.
  apply (passesColor_unique f1 f2 (Spec.colorsOf c));
    [by apply H1 | by apply H2].
Qed.

Lemma mana_filters_exclusive_witness :
  keep "bolt" (Some "R") Sample.bolt = true ∧
  keep "bolt" (Some "U") Sample.bolt = false.
Proof.
  split; [reflexivity|].
  destruct (keep "bolt" (Some "U") Sample.bolt) eqn:HU; [|reflexivity].
  pose proof (mana_filters_exclusive "bolt" "R" "U" Sample.bolt
                ltac:(discriminate) ltac:(discriminate) eq_refl HU) as Heq.
  discriminate Heq.
Defined.

Lemma keep_once (s : string) (c : Card) :
  (∀ x, In x (cardColors c) → In x Spec.colorLetters) →
  sum_list (map (λ f : string * string,
                   if keep s (Some f.1) c then 1%nat else 0%nat) MANA_FILTERS)
  = (if keep s None c then 1 else 0)%nat.
Proof.
  intros Hletters. unfold keep.
  destruct (JS.includes _ _); [|reflexivity].
  destruct (cardColors c) as [|x [|y cs]] eqn:Hcs.
  - reflexivity.
  - destruct (Hletters x (or_introl eq_refl)) as [<-|[<-|[<-|[<-|[<-|[]]]]]];
      reflexivity.
  - reflexivity.
Qed.

Lemma length_filter_cons {A} (p : A → bool) (x : A) (l : list A) :
  length (List.filter p (x :: l))
  = ((if p x then 1 else 0) + length (List.filter p l))%nat.
Proof. simpl. by destruct (p x). Qed.

(** X8. When every colour of every card is one of the five letters, the
    seven filters split the searched list: the numbers of cards shown
    under the seven filters add up to the number shown without filter. *)
Theorem mana_filter_counts_add_up (cards : list Card) (s : string) :
  (∀ c x, In c cards → In x (cardColors c) → In x Spec.colorLetters) →
  sum_list (map (λ f : string * string,
                   length (filteredCards cards s (Some f.1))) MANA_FILTERS)
  = length (filteredCards cards s None).
Proof.
  unfold filteredCards.
  induction cards as [|c cards IH]; intros Hletters; [reflexivity|].
  pose proof (keep_once s c (λ x, Hletters c x (or_introl eq_refl))) as Hc.
  specialize (IH (λ c' x Hc', Hletters c' x (or_intror Hc'))).
  unfold MANA_FILTERS in *.
  cbn [map sum_list sum_list_with fst Datatypes.id] in *.
  rewrite !length_filter_cons.
  repeat match goal with
         | H : context [if ?b then 1%nat else 0%nat] |- _ =>
             let n := fresh "n" in
             set (n := if b then 1%nat else 0%nat) in *; clearbody n
         end.
  lia.
Qed.

Lemma mana_filter_counts_add_up_witness :
  sum_list (map (λ f : string * string,
                   length (filteredCards
                             [Sample.bolt; Sample.opt; Sample.redTransform;
                              Sample.plainCard ["W"; "U"] 2;
                              Sample.plainCard [] 0]
                             "" (Some f.1))) MANA_FILTERS)
  = 5%nat.
Proof.
  rewrite (mana_filter_counts_add_up
             [Sample.bolt; Sample.opt; Sample.redTransform;
              Sample.plainCard ["W"; "U"] 2; Sample.plainCard [] 0] "").
  - reflexivity.
  - intros c x [<-|[<-|[<-|[<-|[<-|[]]]]]] Hx; vm_compute in Hx;
      vm_compute; tauto.
Defined.

(** X9. For a card with top-level colours, all among the five letters,
    the sort and the filters agree on its colour class: the card passes
    the filter of a button exactly when it matches the search and its
    sort rank is the rank that [COLOR_ORDER] gives to that button. *)
Theorem filter_shows_one_rank (s f : string) (c : Card) (cs : list string) :
  colors c = Some cs →
  (∀ x, In x cs → In x Spec.colorLetters) →
  In f (map fst MANA_FILTERS) →
  (keep s (Some f) c = true ↔
   keep s None c = true ∧ COLOR_ORDER !! f = Some (getColorIndex c)).
Proof.
  intros Hc Hletters Hf.
  unfold keep, getColorIndex, cardColors. rewrite Hc.
  destruct (JS.includes _ _); [|by split; [|intros []]].
  destruct cs as [|x [|y cs]].
  - destruct Hf as [<-|[<-|[<-|[<-|[<-|[<-|[<-|[]]]]]]]];
      vm_compute; intuition congruence.
  - destruct (Hletters x (or_introl eq_refl)) as [<-|[<-|[<-|[<-|[<-|[]]]]]];
      destruct Hf as [<-|[<-|[<-|[<-|[<-|[<-|[<-|[]]]]]]]];
      vm_compute; intuition congruence.
  - destruct Hf as [<-|[<-|[<-|[<-|[<-|[<-|[<-|[]]]]]]]];
      vm_compute; intuition congruence.
Qed.

Lemma filter_shows_one_rank_witness :
  keep "bolt" (Some "R") Sample.bolt = true ↔
  keep "bolt" None Sample.bolt = true ∧
  COLOR_ORDER !! "R" = Some (getColorIndex Sample.bolt).
Proof.
  apply (filter_shows_one_rank "bolt" "R" Sample.bolt ["R"]).
  - reflexivity.
  - intros x [<-|[]]. vm_compute. tauto.
  - vm_compute. tauto.
Defined.

Lemma afterClick_in (af : option string) (e : FilterClick) :
  (∀ f, e = ClickMana f → In f MANA_FILTERS) →
  (af = None ∨ ∃ f, In f MANA_FILTERS ∧ af = Some f.1) →
  afterClick af e = None ∨
  ∃ f, In f MANA_FILTERS ∧ afterClick af e = Some f.1.
Proof.
  intros He _. destruct e as [f|]; simpl; [|by left].
  unfold clickFilter. case_bool_decide; [by left|].
  right. exists f. split; [by apply He | done].
Qed.

(** X11. Whatever the sequence of clicks on the mana buttons and the
    clearing controls, the active filter is either unset or the id of
    one entry of [MANA_FILTERS], so it is set exactly when it is truthy.
    A click on the active button unsets the filter; a click on any
    other button makes that button the only active one. *)
Theorem activeFilter_invariant (clicks : list FilterClick) :
  (∀ f, In (ClickMana f) clicks → In f MANA_FILTERS) →
  (foldl afterClick None clicks = None ∨
   ∃ f, In f MANA_FILTERS ∧ foldl afterClick None clicks = Some f.1) ∧
  (JS.truthy (foldl afterClick None clicks) = true ↔
   foldl afterClick None clicks ≠ None) ∧
  (∀ f, clickFilter (Some f.1) f = None) ∧
  (∀ af f, af ≠ Some f.1 → clickFilter af f = Some f.1).
Proof.
  intros Hclicks.
  assert (Hinv : foldl afterClick None clicks = None ∨
    ∃ f, In f MANA_FILTERS ∧ foldl afterClick None clicks = Some f.1).
  { induction clicks as [|e clicks IH] using rev_ind; [by left|].
    rewrite foldl_app. simpl. apply afterClick_in.
    - intros f ->. apply Hclicks, in_app_iff. right. by left.
    - apply IH. intros f Hf. apply Hclicks, in_app_iff. by left. }
  split_and!; [done| | |].
  - destruct Hinv as [->|(f & Hf & ->)]; [done|].
    split; [done|]. intros _.
    destruct Hf as [<-|[<-|[<-|[<-|[<-|[<-|[<-|[]]]]]]]]; reflexivity.
  - intros f. unfold clickFilter. by rewrite bool_decide_eq_true_2.
  - intros af f Hne. unfold clickFilter. by rewrite bool_decide_eq_false_2.
Qed.

Lemma activeFilter_invariant_witness :
  foldl afterClick None
    [ClickMana ("W", "White"); ClickMana ("U", "Blue");
     ClickMana ("U", "Blue"); ClickMana ("M", "Multi")] = Some "M" ∧
  (JS.truthy (foldl afterClick None
                [ClickMana ("W", "White"); ClickMana ("U", "Blue");
                 ClickMana ("U", "Blue"); ClickMana ("M", "Multi")]) = true ↔
   foldl afterClick None
     [ClickMana ("W", "White"); ClickMana ("U", "Blue");
      ClickMana ("U", "Blue"); ClickMana ("M", "Multi")] ≠ None).
Proof.
  split; [reflexivity|].
  apply (activeFilter_invariant
           [ClickMana ("W", "White"); ClickMana ("U", "Blue");
            ClickMana ("U", "Blue"); ClickMana ("M", "Multi")]).
  intros f [[= <-]|[[= <-]|[[= <-]|[[= <-]|[]]]]]; vm_compute; tauto.
Defined.

End ManaFilters.

(** ** The countdown units *)

Section Display.

Lemma pretty_N_go_length (x : N) (s : string) :
  (String.length s ≤ String.length (pretty_N_go x s))%nat.
Proof.
  revert s. induction (N.lt_wf_0 x) as [x _ IH]; intros s.
  destruct (decide (0 < x)%N) as [Hx|Hx].
  - rewrite pretty_N_go_step by done.
    etrans; [|apply IH; by apply N.div_lt]. simpl. lia.
  - replace x with 0%N by lia. by rewrite pretty_N_go_0.
Qed.

Lemma toString_nonneg (v : Z) :
  0 < v → JS.toString v = pretty_N_go (Z.to_N v) "".
Proof.
  intros Hv. destruct v as [|p|p]; [lia| |lia].
  reflexivity.
Qed.

Lemma toString_digit (v : Z) :
  0 ≤ v < 10 → String.length (JS.toString v) = 1%nat.
Proof.
  intros Hv.
  assert (v = 0 ∨ v = 1 ∨ v = 2 ∨ v = 3 ∨ v = 4 ∨ v = 5 ∨ v = 6 ∨ v = 7
          ∨ v = 8 ∨ v = 9) as Hcases by lia.
  repeat destruct Hcases as [->|Hcases]; try reflexivity.
  by subst.
Qed.

Lemma toString_two_steps (v : Z) (s : string) :
  10 ≤ v →
  ∃ c1 c0, pretty_N_go (Z.to_N v) s
           = pretty_N_go ((Z.to_N v `div` 10) `div` 10) (String c1 (String c0 s)).
Proof.
  intros Hv.
  rewrite pretty_N_go_step by lia.
  rewrite pretty_N_go_step.
  - eauto.
  - apply N.div_str_pos. lia.
Qed.

Lemma toString_long (v : Z) :
  10 ≤ v → (2 ≤ String.length (JS.toString v))%nat.
Proof.
  intros Hv. rewrite toString_nonneg by lia.
  destruct (toString_two_steps v "" Hv) as (c1 & c0 & ->).
  etrans; [|apply pretty_N_go_length]. done.
Qed.

Lemma toString_two (v : Z) :
  10 ≤ v < 100 → String.length (JS.toString v) = 2%nat.
Proof.
  intros Hv. rewrite toString_nonneg by lia.
  destruct (toString_two_steps v "" (proj1 Hv)) as (c1 & c0 & ->).
  replace ((Z.to_N v `div` 10) `div` 10)%N with 0%N; [done|].
  symmetry. rewrite N.Div0.div_div. apply N.div_small. lia.
Qed.

Lemma padStart_one (s : string) :
  String.length s = 1%nat → JS.padStart s 2 "0" = "0" +:+ s.
Proof. intros Hlen. unfold JS.padStart. by rewrite Hlen. Qed.

Lemma padStart_enough (s : string) :
  (2 ≤ String.length s)%nat → JS.padStart s 2 "0" = s.
Proof.
  intros Hlen. unfold JS.padStart.
  by destruct (Nat.ltb_spec (String.length s) 2); [lia|].
Qed.

Lemma length_append (a b : string) :
  String.length (a +:+ b) = (String.length a + String.length b)%nat.
Proof.
  induction a as [|x a IH]; [done|].
  change (S (String.length (a +:+ b)) = S (String.length a + String.length b)).
  by rewrite IH.
Qed.

(** X12. A countdown unit shows a non-negative value below 10 as "0"
    followed by its digit and any larger value as its plain decimal
    digits: never fewer than two characters, exactly two below 100, and
    no digit is ever cut off. *)
Theorem CountdownUnit_two_digits (val : Z) :
  0 ≤ val →
  (val < 10 → Tracker.CountdownUnit val = "0" +:+ JS.toString val) ∧
  (10 ≤ val → Tracker.CountdownUnit val = JS.toString val) ∧
  (val < 100 → String.length (Tracker.CountdownUnit val) = 2%nat) ∧
  (2 ≤ String.length (Tracker.CountdownUnit val))%nat.
Proof.
  intros Hval. unfold Tracker.CountdownUnit.
  destruct (Z.lt_ge_cases val 10) as [Hlt|Hge].
  - pose proof (toString_digit val (conj Hval Hlt)) as Hlen.
    rewrite padStart_one by done. rewrite length_append, Hlen.
    split_and!; [done | lia | done | done].
  - pose proof (toString_long val Hge) as Hlen.
    rewrite padStart_enough by done.
    split_and!; [lia | done | | done].
    intros Hlt. by apply toString_two.
Qed.

Lemma CountdownUnit_two_digits_witness :
  (7 < 10 → Tracker.CountdownUnit 7 = "0" +:+ JS.toString 7) ∧
  (10 ≤ 7 → Tracker.CountdownUnit 7 = JS.toString 7) ∧
  (7 < 100 → String.length (Tracker.CountdownUnit 7) = 2%nat) ∧
  (2 ≤ String.length (Tracker.CountdownUnit 7))%nat.
Proof. apply (CountdownUnit_two_digits 7). lia. Defined.

Lemma tick_total (prereleaseDate now : Z) :
  Spec.totalSeconds (Tracker.tick prereleaseDate now)
  = Z.max 0 ((prereleaseDate - now) / 1000).
Proof.
  destruct (Z.le_gt_cases prereleaseDate now) as [Hle|Hlt].
  - unfold Tracker.tick.
    destruct (Z.leb_spec (prereleaseDate - now) 0) as [_|]; [|lia].
    unfold Spec.totalSeconds. simpl.
    pose proof (Z.div_le_upper_bound (prereleaseDate - now) 1000 0). lia.
  - rewrite tick_running by done. unfold Spec.totalSeconds. simpl.
    set (diff := prereleaseDate - now).
    assert (E0 : diff / 1000 / 60 = diff / 60000)
      by (by rewrite Z.div_div by lia).
    pose proof (Z.div_pos diff 1000 ltac:(lia) ltac:(lia)).
    pose proof (Z.div_mod (diff / 1000) 60 ltac:(lia)) as H1.
    pose proof (Z.div_mod (diff / 1000 / 60) 60 ltac:(lia)) as H2.
    pose proof (Z.div_mod (diff / 1000 / 60 / 60) 24 ltac:(lia)) as H3.
    assert (E3 : diff / 1000 / 60 / 60 = diff / 3600000)
      by (by rewrite !Z.div_div by lia).
    assert (E4 : diff / 1000 / 60 / 60 / 24 = diff / 86400000)
      by (by rewrite !Z.div_div by lia).
    rewrite E0, ?E3, ?E4 in *. lia.
Qed.

Lemma tick_fields (prereleaseDate now : Z) :
  0 ≤ Tracker.d (Tracker.tick prereleaseDate now) ∧
  0 ≤ Tracker.h (Tracker.tick prereleaseDate now) < 24 ∧
  0 ≤ Tracker.m (Tracker.tick prereleaseDate now) < 60 ∧
  0 ≤ Tracker.s (Tracker.tick prereleaseDate now) < 60.
Proof.
  destruct (Z.le_gt_cases prereleaseDate now) as [Hle|Hlt].
  - unfold Tracker.tick.
    destruct (Z.leb_spec (prereleaseDate - now) 0) as [_|]; [|lia].
    simpl. lia.
  - rewrite tick_running by done. simpl.
    set (diff := prereleaseDate - now).
    pose proof (Z.div_pos diff 86400000 ltac:(lia) ltac:(lia)).
    pose proof (Z.mod_pos_bound (diff / 3600000) 24 ltac:(lia)).
    pose proof (Z.mod_pos_bound (diff / 60000) 60 ltac:(lia)).
    pose proof (Z.mod_pos_bound (diff / 1000) 60 ltac:(lia)).
    lia.
Qed.

(** X13. At every reading of the clock the hours, minutes and seconds
    units show exactly two characters and the days unit at least two. *)
Theorem countdown_units_two_characters (prereleaseDate now : Z) :
  (2 ≤ String.length
         (Tracker.CountdownUnit
            (Tracker.d (Tracker.tick prereleaseDate now))))%nat ∧
  String.length
    (Tracker.CountdownUnit (Tracker.h (Tracker.tick prereleaseDate now)))
  = 2%nat ∧
  String.length
    (Tracker.CountdownUnit (Tracker.m (Tracker.tick prereleaseDate now)))
  = 2%nat ∧
  String.length
    (Tracker.CountdownUnit (Tracker.s (Tracker.tick prereleaseDate now)))
  = 2%nat.
Proof.
  destruct (tick_fields prereleaseDate now) as (Hd & Hh & Hm & Hs).
  assert (Hunit : ∀ v, 0 ≤ v →
    (2 ≤ String.length (Tracker.CountdownUnit v))%nat ∧
    (v < 100 → String.length (Tracker.CountdownUnit v) = 2%nat)).
  { intros v Hv. unfold Tracker.CountdownUnit.
    destruct (Z.lt_ge_cases v 10) as [Hlt|Hge].
    - rewrite padStart_one by (by apply toString_digit).
      rewrite length_append, toString_digit by done. done.
    - rewrite padStart_enough by (by apply toString_long).
      split; [by apply toString_long|]. intros Hlt. by apply toString_two. }
  split_and!.
  - by apply Hunit.
  - apply Hunit; lia.
  - apply Hunit; lia.
  - apply Hunit; lia.
Qed.

(** X14. The reading of the countdown stands for the whole seconds left
    (0 once the instant is reached, and already during the last second
    before it); it never grows as the clock advances, and one second
    later it stands for exactly one second less while seconds remain. *)
Theorem countdown_counts_whole_seconds (prereleaseDate now : Z) :
  Spec.totalSeconds (Tracker.tick prereleaseDate now)
  = Z.max 0 ((prereleaseDate - now) / 1000) ∧
  (prereleaseDate - 1000 < now →
   Tracker.tick prereleaseDate now
   = {| Tracker.d := 0; Tracker.h := 0; Tracker.m := 0; Tracker.s := 0 |}) ∧
  (∀ later, now ≤ later →
     Spec.totalSeconds (Tracker.tick prereleaseDate later)
     ≤ Spec.totalSeconds (Tracker.tick prereleaseDate now)) ∧
  (now + 1000 ≤ prereleaseDate →
   Spec.totalSeconds (Tracker.tick prereleaseDate (now + 1000))
   = Spec.totalSeconds (Tracker.tick prereleaseDate now) - 1).
Proof.
  split_and!.
  - apply tick_total.
  - intros Hlast.
    destruct (Z.le_gt_cases prereleaseDate now) as [Hle|Hlt].
    + unfold Tracker.tick.
      by destruct (Z.leb_spec (prereleaseDate - now) 0) as [_|]; [|lia].
    + rewrite tick_running by done.
      assert (Hd : ∀ k, 1000 ≤ k → (prereleaseDate - now) / k = 0)
        by (intros k Hk; apply Z.div_small; lia).
      by rewrite !Hd by lia.
  - intros later Hlater. rewrite !tick_total.
    pose proof (Z.div_le_mono (prereleaseDate - later) (prereleaseDate - now)
                  1000 ltac:(lia) ltac:(lia)).
    lia.
  - intros Hleft. rewrite !tick_total.
    replace (prereleaseDate - (now + 1000))
      with (prereleaseDate - now + (-1) * 1000) by lia.
    rewrite Z.div_add by lia.
    pose proof (Z.div_le_lower_bound (prereleaseDate - now) 1000 1
                  ltac:(lia) ltac:(lia)).
    lia.
Qed.

End Display.

(** ** The theme *)

Section Theme.
Import Tracker.

(** X15. The theme survives a reload: after the effect has run for a
    value of [isDark], a fresh start reads that same value back; the
    document carries the class [dark] exactly in dark mode; other
    classes and other stored keys are untouched.  With nothing stored
    (or an empty value) the application starts dark, and any stored
    value other than "dark" starts it light. *)
Theorem theme_survives_reload (isDark : bool) (b : Browser) :
  initialIsDark (themeEffect isDark b) = isDark ∧
  ("dark" ∈ classList (themeEffect isDark b) ↔ isDark = true) ∧
  (∀ cls, cls ≠ "dark" →
     cls ∈ classList (themeEffect isDark b) ↔ cls ∈ classList b) ∧
  (∀ k, k ≠ "theme" →
     localStorage (themeEffect isDark b) !! k = localStorage b !! k) ∧
  (localStorage b !! "theme" = None → initialIsDark b = true) ∧
  (∀ v, localStorage b !! "theme" = Some v →
     initialIsDark b = true ↔ v = "dark" ∨ v = "").
Proof.
  split_and!.
  - unfold initialIsDark, themeEffect.
    destruct isDark; simpl; by rewrite lookup_insert_eq.
  - unfold themeEffect. destruct isDark; simpl; set_solver.
  - intros cls Hcls. unfold themeEffect. destruct isDark; simpl; set_solver.
  - intros k Hk. unfold themeEffect.
    destruct isDark; simpl; by rewrite lookup_insert_ne.
  - intros Hnone. unfold initialIsDark. by rewrite Hnone.
  - intros v Hv. unfold initialIsDark. rewrite Hv. simpl.
    destruct (String.eqb_spec v "") as [->|Hne]; simpl.
    + split; [by right | done].
    + rewrite bool_decide_eq_true. split.
      * intros Heq. injection Heq as ->. by left.
      * intros [-> | ->]; done.
Qed.

End Theme.

(** ** The selection count *)

Section SelectionCount.
Import Tracker.

(** X16. A toggle changes the number of selected cards by exactly one
    (up when the card was not selected, down when it was), so the count
    is 1 after the first selection; and toggles of two cards commute:
    the order of the clicks does not matter. *)
Theorem toggleSelection_count (selectedCards : gset string) (a b : string) :
  (a ∉ selectedCards →
   size (toggleSelection selectedCards a) = S (size selectedCards)) ∧
  (a ∈ selectedCards →
   S (size (toggleSelection selectedCards a)) = size selectedCards) ∧
  size (toggleSelection ∅ a) = 1%nat ∧
  toggleSelection (toggleSelection selectedCards a) b
  = toggleSelection (toggleSelection selectedCards b) a.
Proof.
  split_and!.
  - intros Ha. unfold toggleSelection.
    rewrite bool_decide_eq_false_2 by done.
    rewrite size_union by set_solver. rewrite size_singleton. lia.
  - intros Ha. unfold toggleSelection.
    rewrite bool_decide_eq_true_2 by done.
    assert (Hsz : size ({[ a ]} ∪ selectedCards ∖ {[ a ]})
                  = size selectedCards).
    { f_equal. symmetry. apply union_difference_L. set_solver. }
    rewrite size_union in Hsz by set_solver.
    rewrite size_singleton in Hsz. lia.
  - unfold toggleSelection.
    rewrite bool_decide_eq_false_2 by set_solver.
    rewrite size_union by set_solver.
    by rewrite size_empty, size_singleton.
  - apply set_eq. intros x. unfold toggleSelection.
    repeat case_bool_decide;
      destruct (decide (x = a)), (decide (x = b)); set_solver.
Qed.

End SelectionCount.

(** ** More on the pagination loop *)

Section PaginationMore.
Import Tracker.

Lemma omap_cons_Some {A B} (f : A → option B) (x : A) (y : B) (l : list A) :
  f x = Some y → omap f (x :: l) = y :: omap f l.
Proof. intros H. simpl. by rewrite H. Qed.

Lemma fetchPages_requests w ps :
  ∀ uri acc st fuel,
    uri ≠ "" →
    Spec.PageChain (search_api w) (length (requests st)) uri ps →
    (length ps ≤ fuel)%nat →
    requests (snd (fetchPages w fuel (Some uri) acc st))
    = (requests st ++ (uri :: Spec.continuations ps))%list.
Proof.
  induction ps as [|p ps IH]; intros uri acc st fuel Hne Hch Hfuel.
  { inversion Hch. }
  destruct fuel as [|fuel]; [simpl in Hfuel; lia|].
  inversion Hch as [n u q Hp Hstop | n u q uri' qs Hp Hcont Hrest]; subst.
  - rewrite (fetchPages_fulfilled _ _ _ _ _ _ Hne Hp).
    by rewrite (nextUri_stops _ Hstop), fetchPages_null.
  - rewrite (fetchPages_fulfilled _ _ _ _ _ _ Hne Hp).
    rewrite (nextUri_continues _ _ Hcont).
    destruct Hcont as (_ & Hnext & Hne').
    rewrite <- requests_sent with (uri := uri) in Hrest.
    rewrite IH; [|done|done|simpl in Hfuel; lia].
    unfold Spec.continuations.
    destruct ps as [|p' ps']; [inversion Hrest|].
    change (removelast (p :: p' :: ps')) with (p :: removelast (p' :: ps')).
    rewrite (omap_cons_Some _ _ _ _ Hnext). simpl.
    by rewrite <- app_assoc.
Qed.

(** X17. The loop builds no address of its own after the first: the
    requests it sends are the search address of the release followed by
    the next-page references handed out by the pages, verbatim and in
    order, and nothing else. *)
Theorem fetchPages_follows_references
    (w : World) (t : SetInfo) (ps : list Page) (st : State) (fuel : nat) :
  Spec.PageChain (search_api w) (length (requests st)) (searchUri t) ps →
  (length ps ≤ fuel)%nat →
  requests (snd (fetchPages w fuel (Some (searchUri t)) [] st))
  = (requests st ++ (searchUri t :: Spec.continuations ps))%list.
Proof.
  intros Hch Hfuel. apply fetchPages_requests; [|done..].
  apply searchUri_nonempty.
Qed.

Lemma fetchPages_follows_references_witness :
  requests (snd (fetchPages (Sample.world Sample.threePages) 3
                   (Some (searchUri Sample.xyz)) [] mounted))
  = [searchUri Sample.xyz; "page2"; "page3"].
Proof.
  apply (fetchPages_follows_references (Sample.world Sample.threePages)
           Sample.xyz [Sample.page1; Sample.page2; Sample.page3] mounted 3).
  - apply Spec.chain_next with (uri' := "page2");
      [reflexivity | repeat split; discriminate |].
    apply Spec.chain_next with (uri' := "page3");
      [reflexivity | repeat split; discriminate |].
    apply Spec.chain_last; [reflexivity | by left].
  - simpl. lia.
Defined.

Lemma fetchPages_endless w :
  (∀ n uri, uri ≠ "" →
     ∃ p uri', search_api w n uri = Fulfilled p ∧ Spec.continues p uri') →
  ∀ fuel uri acc st,
    uri ≠ "" →
    ∃ st', fetchPages w fuel (Some uri) acc st = (Pending, st') ∧
           loading st' = loading st ∧ currentSet st' = currentSet st ∧
           cards st' = cards st ∧
           length (requests st') = (length (requests st) + fuel)%nat.
Proof.
  intros Hsrv. induction fuel as [|fuel IH]; intros uri acc st Hne.
  - exists st. cbn [fetchPages]. rewrite (truthy_Some _ Hne).
    split_and!; [done..|lia].
  - destruct (Hsrv (length (requests st)) uri Hne) as (p & uri' & Hp & Hcont).
    rewrite (fetchPages_fulfilled _ _ _ _ _ _ Hne Hp).
    rewrite (nextUri_continues _ _ Hcont).
    destruct Hcont as (_ & _ & Hne').
    destruct (IH uri'
                (match data p with Some page => acc ++ page | None => acc end)%list
                (sent uri st) Hne')
      as (st' & -> & Hl & Hc & Hk & Hr).
    exists st'. split_and!; [done..|].
    rewrite Hr, requests_sent. lia.
Qed.

(** X18. The loop has no bound and detects no cycle: against a source
    whose every page says that more exist and names a next page, it
    never finishes -- after any number of iterations [fetchData] is
    still pending, the loading flag is still set, no card has been
    published, and one more request has been sent per iteration. *)
Theorem endless_source_never_settles
    (w : World) (sets : list SetInfo) (t : SetInfo) (st : State) (fuel : nat) :
  sets_api w = Fulfilled (Some sets) →
  targetSet sets (clock w) = Some t →
  (∀ n uri, uri ≠ "" →
     ∃ p uri', search_api w n uri = Fulfilled p ∧ Spec.continues p uri') →
  ∃ st', fetchData w fuel st = (Pending, st') ∧
         loading st' = true ∧ cards st' = cards st ∧
         length (requests st') = (length (requests st) + fuel)%nat.
Proof.
  intros Hsets Ht Hsrv.
  rewrite (fetchData_target _ _ _ _ _ Hsets Ht).
  destruct (fetchPages_endless w Hsrv fuel (searchUri t) [] (tracking t st)
              (searchUri_nonempty t))
    as (st' & -> & Hl & _ & Hk & Hr).
  exists st'. split_and!; done.
Qed.

Lemma endless_source_never_settles_witness :
  ∃ st', fetchData (Sample.world Sample.endless) 50 mounted = (Pending, st') ∧
         loading st' = true ∧ cards st' = cards mounted ∧
         length (requests st') = (length (requests mounted) + 50)%nat.
Proof.
  apply (endless_source_never_settles (Sample.world Sample.endless)
           [Sample.xyz] Sample.xyz mounted 50); [reflexivity | reflexivity |].
  intros n uri _. eexists _, _. split; [reflexivity|].
  repeat split. apply searchUri_nonempty.
Defined.

End PaginationMore.

(** ** The two resolution policies side by side *)

Section SortFilterCommute.
Context {A : Type} (cmp : A → A → Z).
Hypothesis cmp_total : ∀ x y, 0 < cmp x y → cmp y x ≤ 0.
Hypothesis cmp_trans : ∀ x y z, cmp x y ≤ 0 → cmp y z ≤ 0 → cmp x z ≤ 0.

Lemma insert_front (x : A) (l : list A) :
  (∀ z, In z l → cmp x z ≤ 0) → JS.insert cmp x l = x :: l.
Proof.
  destruct l as [|y l]; [done|]. intros Hle. simpl.
  destruct (Z.ltb_spec 0 (cmp x y)) as [Hlt|]; [|done].
  specialize (Hle y (or_introl eq_refl)). lia.
Qed.

Lemma filter_insert (p : A → bool) (x : A) (l : list A) :
  StronglySorted (λ a b, cmp a b ≤ 0) l →
  p x = true →
  List.filter p (JS.insert cmp x l) = JS.insert cmp x (List.filter p l).
Proof.
  intros Hs Hx. induction Hs as [|y l Hs IH Hall]; simpl.
  - by rewrite Hx.
  - destruct (Z.ltb_spec 0 (cmp x y)) as [Hlt|Hle]; simpl.
    + destruct (p y) eqn:Hy; [|done]. simpl.
      destruct (Z.ltb_spec 0 (cmp x y)); [|lia]. by rewrite IH.
    + rewrite Hx. symmetry. apply insert_front.
      intros z Hz. apply cmp_trans with y; [done|].
      rewrite List.Forall_forall in Hall.
      destruct (p y); [destruct Hz as [<-|Hz]|].
      * destruct (Z.ltb_spec 0 (cmp y y)) as [Hyy|]; [|done].
        specialize (cmp_total _ _ Hyy). lia.
      * apply Hall. by apply filter_In in Hz as [? _].
      * apply Hall. by apply filter_In in Hz as [? _].
Qed.

Lemma sort_strongly_sorted (l : list A) :
  StronglySorted (λ a b, cmp a b ≤ 0) (JS.sort cmp l).
Proof.
  apply Sorted_StronglySorted.
  - intros a b c. apply cmp_trans.
  - apply sort_sorted. intros x y _ _. apply cmp_total.
Qed.

Lemma filter_sort (p : A → bool) (l : list A) :
  List.filter p (JS.sort cmp l) = JS.sort cmp (List.filter p l).
Proof.
  induction l as [|x l IH]; [done|].
  simpl. fold (JS.sort cmp l).
  destruct (p x) eqn:Hx.
  - rewrite filter_insert by (done || apply sort_strongly_sorted).
    by rewrite IH.
  - rewrite insert_filter by (by rewrite Hx). simpl. by rewrite Hx.
Qed.

End SortFilterCommute.

Section Policies.
Import Tracker.

Lemma filter_filter_and {A} (p q : A → bool) (l : list A) :
  List.filter p (List.filter q l) = List.filter (λ x, q x && p x) l.
Proof.
  induction l as [|x l IH]; [done|]. simpl.
  destruct (q x); simpl; [destruct (p x)|]; by rewrite IH.
Qed.

Lemma sort_byDate_timeOf (l : list SetInfo) :
  (∀ x, In x l → ∃ t, released_at x = Some t) →
  JS.sort byDate l = JS.sort (λ a b, Spec.timeOf a - Spec.timeOf b) l.
Proof.
  intros Hdated. apply sort_ext.
  intros x y [tx Hx]%Hdated [ty Hy]%Hdated.
  unfold byDate, Spec.timeOf. by rewrite Hx, Hy.
Qed.

(** When no release is of kind "commander" and none is dated exactly
    [now], the releases dated [now] or later of the full tracker are the
    sorted list from which the basic variant takes its first element. *)
Lemma futureSets_basic (sets : list SetInfo) (now : Z) :
  (∀ s, In s sets → set_type s ≠ "commander") →
  (∀ s, In s sets → released_at s ≠ Some now) →
  futureSets sets now
  = JS.sort byDate
      (List.filter
         (λ s, JS.array_includes ["expansion"; "core"; "masters"; "commander"]
                 (set_type s)
               && date_gt (released_at s) now)
         sets).
Proof.
  intros Hkind Hnow. unfold futureSets, candidates.
  rewrite sort_byDate_timeOf.
  2:{ intros x [_ (t & Ht & _)%date_gt_spec]%filter_In. eauto. }
  rewrite filter_sort by (intros; lia).
  rewrite <- sort_byDate_timeOf.
  2:{ intros x [[_ (t & Ht & _)%date_gt_spec]%filter_In _]%filter_In. eauto. }
  f_equal. rewrite !filter_filter_and. apply filter_ext_in.
  intros s Hs. specialize (Hkind s Hs). specialize (Hnow s Hs).
  unfold JS.array_includes. simpl.
  apply String.eqb_neq in Hkind. rewrite Hkind.
  destruct (released_at s) as [x|]; simpl; [|by rewrite !andb_false_r].
  assert (x ≠ now) by congruence.
  destruct (Z.ltb_spec (now - 1000 * 60 * 60 * 24 * 60) x),
           (Z.leb_spec now x), (Z.ltb_spec now x);
    rewrite ?orb_false_r, ?andb_true_r, ?andb_false_r; try done; lia.
Qed.

(** X19. The two variants resolve the same release whenever the
    catalogue has no "commander" release and no release dated exactly
    [now]: the basic variant tracks a release exactly when the full
    tracker tracks that release and it is dated after [now].  (They
    differ only on commander releases, on a release dated [now], and on
    the sixty-day fall-back.) *)
Theorem variants_track_same_release
    (sets : list SetInfo) (now : Z) (t : SetInfo) :
  (∀ s, In s sets → set_type s ≠ "commander") →
  (∀ s, In s sets → released_at s ≠ Some now) →
  (Basic.upcoming sets now = Some t ↔
   targetSet sets now = Some t ∧ ∃ dt, Spec.releasedOn t dt ∧ now < dt).
Proof.
  intros Hkind Hnow.
  pose proof (futureSets_basic sets now Hkind Hnow) as HF.
  unfold Basic.upcoming, targetSet. rewrite <- HF.
  destruct (futureSets sets now) as [|f F] eqn:E; simpl.
  - split; [done|]. intros [Hlast (dt & Hdt & Hlt)].
    assert (HtC : In t (candidates sets now)).
    { unfold at_index in Hlast. destruct (_ <? 0); [done|].
      apply list_elem_of_In. by eapply list_elem_of_lookup_2. }
    assert (HtF : In t (futureSets sets now)).
    { unfold futureSets. apply filter_In. split; [done|].
      apply date_ge_spec. exists dt. split; [done|lia]. }
    by rewrite E in HtF.
  - assert (HfF : In f (futureSets sets now)) by (rewrite E; by left).
    unfold futureSets in HfF.
    apply filter_In in HfF as [_ (dt & Hdt & Hge)%date_ge_spec].
    split.
    + intros [= <-]. split; [done|]. exists dt. split; [done|].
      assert (In f sets).
      { assert (Hc : In f (candidates sets now)).
        { assert (H' : In f (futureSets sets now)) by (rewrite E; by left).
          unfold futureSets in H'. by apply filter_In in H' as [? _]. }
        by apply In_candidates in Hc as [? _]. }
      assert (dt ≠ now) by (intros ->; by apply (Hnow f)).
      lia.
    + by intros [[= <-] _].
Qed.

Lemma variants_track_same_release_witness :
  Basic.upcoming
    [Sample.release "aaa" "expansion" 10; Sample.release "bbb" "core" 5;
     Sample.release "old" "masters" (-3)] 0
  = Some (Sample.release "bbb" "core" 5) ↔
  targetSet
    [Sample.release "aaa" "expansion" 10; Sample.release "bbb" "core" 5;
     Sample.release "old" "masters" (-3)] 0
  = Some (Sample.release "bbb" "core" 5) ∧
  ∃ dt, Spec.releasedOn (Sample.release "bbb" "core" 5) dt ∧ 0 < dt.
Proof.
  apply (variants_track_same_release
           [Sample.release "aaa" "expansion" 10; Sample.release "bbb" "core" 5;
            Sample.release "old" "masters" (-3)] 0
           (Sample.release "bbb" "core" 5)).
  - intros s [<-|[<-|[<-|[]]]]; discriminate.
  - intros s [<-|[<-|[<-|[]]]]; discriminate.
Defined.

End Policies.
